(** * lm-format-enforcer: the diagnostic-capture layer of [transformerenforcer.py]

    A shallow embedding of [src/lmformatenforcer/transformerenforcer.py]:
    the score recorder ([LogitsSaverWarper]), the session manager
    ([LogitsSaverManager]) and the entry point [generate_enforced], followed
    by the properties of the specification that concern them.

    Conventions of the embedding.
    - A Python exception is a value of [exn]; a computation that may raise
      has type [result A]; a computation that also reads and writes Python
      objects has type [M A], a state-and-exception monad over [world].
    - A float tensor is idealised: its entries are real numbers ([R]), so
      [torch.softmax] is the exact normalised exponential.  Rounding, NaN
      and infinities are outside the model.
    - The host library (transformers' [generate], the tokenizer, the token
      enforcer) is not part of this repository; it appears as section
      variables, and a generation call is the list of call-backs it makes
      into this file's code together with its outcome. *)

From Stdlib Require Import String.
From Stdlib Require Import List ZArith Reals Lra Lia Bool Sorted.
Import ListNotations.

Set Implicit Arguments.

(** ** Exceptions and the result monad *)

Inductive exn : Type :=
| KeyError
| TypeError
| AttributeError
| IndexError
| RuntimeError
| RecursionError
| AssertionError
| HostError (tag : nat).   (* whatever the host generation loop raises *)

Inductive result (A : Type) : Type :=
| Ok (a : A)
| Raise (e : exn).

Arguments Ok {A} a.
Arguments Raise {A} e.

Definition rbind {A B} (c : result A) (k : A -> result B) : result B :=
  match c with
  | Ok a => k a
  | Raise e => Raise e
  end.

Declare Scope result_scope.
Delimit Scope result_scope with res.
Notation "x <- c ;; k" := (rbind c (fun x => k))
  (at level 61, c at next level, right associativity) : result_scope.
Notation "' p <- c ;; k" := (rbind c (fun p => k))
  (at level 61, p pattern, c at next level, right associativity) : result_scope.

Fixpoint mapM {A B} (f : A -> result B) (l : list A) : result (list B) :=
  match l with
  | [] => Ok []
  | a :: l' =>
      match f a with
      | Raise e => Raise e
      | Ok b =>
          match mapM f l' with
          | Raise e => Raise e
          | Ok bs => Ok (b :: bs)
          end
      end
  end.

(** ** Python sequences *)

Module Py.

(** [l[-k:]] for a length [k] computed with [len]: Python reads [-0] as
    [0], so [l[-0:]] is the whole of [l]; otherwise the slice keeps the
    last [k] elements, or all of them when there are fewer. *)
Definition slice_last {A} (k : nat) (l : list A) : list A :=
  if k =? 0 then l else skipn (length l - k) l.

(** [l.insert(i, x)] for [i >= 0]: past the end it appends. *)
Definition insert {A} (i : nat) (x : A) (l : list A) : list A :=
  firstn i l ++ x :: skipn i l.

(** The values the inspected keyword options take: [None], a [bool] or
    an [int]. *)
Inductive value : Type :=
| VNone
| VBool (b : bool)
| VInt (z : Z).

(** Truth value in a condition or under [and], [or], [not]. *)
Definition truthy (v : value) : bool :=
  match v with
  | VNone => false
  | VBool b => b
  | VInt z => negb (z =? 0)%Z
  end.

(** [a and b]: [a] when [a] is falsy, otherwise [b]. *)
Definition and_ (a b : value) : value := if truthy a then b else a.

(** [v > 1]: [bool] is a subtype of [int]; [None > 1] raises. *)
Definition gt_one (v : value) : result bool :=
  match v with
  | VNone => Raise TypeError
  | VBool b => Ok false
  | VInt z => Ok (1 <? z)%Z
  end.

End Py.

(** ** The tensor operations the file uses *)

Module Torch.

(** A 2-D float tensor is the list of its rows (the rows of a well-shaped
    tensor all have the vocabulary size as their length); a 1-D integer
    tensor is a list of integers. *)
Definition tensor : Type := list (list R).
Definition long_tensor : Type := list Z.

Definition same_width (m : tensor) : bool :=
  match m with
  | [] => true
  | r :: m' => forallb (fun r' => length r' =? length r) m'
  end.

(** [torch.concat(ts)] along dimension 0: refuses an empty list, and
    tensors whose rows differ in length. *)
Definition concat (ts : list tensor) : result tensor :=
  match ts with
  | [] => Raise RuntimeError
  | _ :: _ =>
      let m := List.concat ts in
      if same_width m then Ok m else Raise RuntimeError
  end.

Definition sum_exp (r : list R) : R :=
  fold_right (fun x acc => (exp x + acc)%R) 0%R r.

Definition softmax_row (r : list R) : list R :=
  map (fun x => (exp x / sum_exp r)%R) r.

(** [torch.softmax(m, dim=1)], as the exact normalised exponential: the
    rounding of the floating-point computation, and the underflow of a
    small probability to 0, are not modelled. *)
Definition softmax (m : tensor) : tensor := map softmax_row m.

(** Index, in [x :: r], of the first occurrence of the maximum. *)
Fixpoint argmax_ne (x : R) (r : list R) : nat :=
  match r with
  | [] => 0
  | y :: r' =>
      let j := argmax_ne y r' in
      if Rlt_dec x (nth j (y :: r') 0%R) then S j else 0
  end.

Definition argmax_row (r : list R) : result Z :=
  match r with
  | [] => Raise IndexError
  | x :: r' => Ok (Z.of_nat (argmax_ne x r'))
  end.

(** [torch.argmax(m, dim=1)]: an empty reduction dimension is an error. *)
Definition argmax (m : tensor) : result long_tensor := mapM argmax_row m.

(** [torch.arange(n)] *)
Definition arange (n : nat) : list nat := seq 0 n.

(** Broadcasting of two 1-D index tensors. *)
Definition broadcast {A B} (xs : list A) (ys : list B)
  : result (list (A * B)) :=
  if length xs =? length ys then Ok (combine xs ys)
  else
    match xs, ys with
    | [x], _ => Ok (map (pair x) ys)
    | _, [y] => Ok (map (fun x => (x, y)) xs)
    | _, _ => Raise IndexError
    end.

(** An index into a dimension of size [n]: negative indices count from
    the end, anything outside [-n, n) is an error. *)
Definition norm_index (n : nat) (i : Z) : result nat :=
  if ((0 <=? i) && (i <? Z.of_nat n))%Z then Ok (Z.to_nat i)
  else if ((- Z.of_nat n <=? i) && (i <? 0))%Z
       then Ok (Z.to_nat (i + Z.of_nat n))
       else Raise IndexError.

Definition at_ (m : tensor) (p : nat * Z) : result R :=
  match nth_error m (fst p) with
  | None => Raise IndexError
  | Some r =>
      match norm_index (length r) (snd p) with
      | Raise e => Raise e
      | Ok j =>
          match nth_error r j with
          | Some v => Ok v
          | None => Raise IndexError
          end
      end
  end.

(** [m[rows, cols]] with two 1-D integer index tensors. *)
Definition index2 (m : tensor) (rows : list nat) (cols : long_tensor)
  : result (list R) :=
  match broadcast rows cols with
  | Raise e => Raise e
  | Ok ps => mapM (at_ m) ps
  end.

End Torch.

(** ** Python objects: the store and the state-and-exception monad *)

Definition loc : Type := nat.

(** The constraint filter handed to the host: [(batch_id, sent)] to the
    list of allowed token ids. *)
Definition filter : Type := Z -> list Z -> list Z.

(** What [model._get_logits_warper] can hold: the model's own method, the
    closure [new_logits_warper] of the manager object [self] (which captured
    [filter_func]), or [None]. *)
Inductive hook : Type :=
| HNone
| HOriginal
| HReplaced (self : loc) (filter_func : option filter).

(** A [LogitsSaverManager] object. *)
Record manager : Type := mkManager {
  warper : option loc;
  old_warper : hook
}.

(** The objects the file touches: tensors, [LogitsSaverWarper] objects
    (each is its [scores] list, a list of tensor references), manager
    objects, and the model's [_get_logits_warper] attribute.  A location is
    an index into its store; allocation appends. *)
Record world : Type := mkWorld {
  heap : list Torch.tensor;
  savers : list (list loc);
  managers : list manager;
  model_hook : hook
}.

Definition set_heap (h : list Torch.tensor) (w : world) : world :=
  mkWorld h (savers w) (managers w) (model_hook w).
Definition set_savers (s : list (list loc)) (w : world) : world :=
  mkWorld (heap w) s (managers w) (model_hook w).
Definition set_managers (m : list manager) (w : world) : world :=
  mkWorld (heap w) (savers w) m (model_hook w).
Definition set_model_hook (h : hook) (w : world) : world :=
  mkWorld (heap w) (savers w) (managers w) h.

(** Assignment at an index of a store (no effect outside it). *)
Fixpoint update {A} (i : nat) (f : A -> A) (l : list A) : list A :=
  match l, i with
  | [], _ => []
  | a :: l', 0 => f a :: l'
  | a :: l', S i' => a :: update i' f l'
  end.

Definition M (A : Type) : Type := world -> result A * world.

Definition ret {A} (a : A) : M A := fun w => (Ok a, w).
Definition raise {A} (e : exn) : M A := fun w => (Raise e, w).
Definition lift {A} (r : result A) : M A := fun w => (r, w).

(** Sequencing: state changes made before an exception are kept. *)
Definition bind {A B} (c : M A) (k : A -> M B) : M B :=
  fun w =>
    match c w with
    | (Ok a, w') => k a w'
    | (Raise e, w') => (Raise e, w')
    end.

(** [try: c finally: f].  The [finally] block runs on both exits; the
    result or exception of [c] stands unless [f] raises itself. *)
Definition try_finally {A} (c : M A) (f : M unit) : M A :=
  fun w =>
    let (r, w1) := c w in
    match f w1 with
    | (Ok _, w2) => (r, w2)
    | (Raise e, w2) => (Raise e, w2)
    end.

Declare Scope monad_scope.
Delimit Scope monad_scope with M.
Notation "x <- c ;; k" := (bind c (fun x => k))
  (at level 61, c at next level, right associativity) : monad_scope.
Notation "' p <- c ;; k" := (bind c (fun p => k))
  (at level 61, p pattern, c at next level, right associativity) : monad_scope.
Notation "c ;;; k" := (bind c (fun _ => k))
  (at level 61, right associativity) : monad_scope.

(** ** [class LogitsSaverWarper] *)

Module LogitsSaverWarper.

(** [__init__]: [self.scores = []] *)
Definition init : M loc :=
  fun w => (Ok (length (savers w)), set_savers (savers w ++ [[]]) w).

(** [scores.clone().detach()]: a new tensor object with the same
    entries. *)
Definition clone_detach (scores : loc) : M loc :=
  fun w => (Ok (length (heap w)),
            set_heap (heap w ++ [nth scores (heap w) []]) w).

(** [self.scores.append(t)] *)
Definition append (self t : loc) : M unit :=
  fun w => (Ok tt, set_savers (update self (fun s => s ++ [t]) (savers w)) w).

(** [__call__(self, input_ids, scores)] *)
Definition call (self : loc) (input_ids : list (list Z)) (scores : loc)
  : M loc :=
  (cpu_scores <- clone_detach scores ;;
   append self cpu_scores ;;;
   ret scores)%M.

End LogitsSaverWarper.

(** The warper chain is a Python list of processors: the recorder of this
    file, the host's [PrefixConstrainedLogitsProcessor], or any other
    processor of the host. *)
Inductive processor : Type :=
| PSaver (w : loc)
| PPrefixConstrained (prefix_allowed_tokens_fn : filter) (num_beams : Z)
| PHost (id : nat).

(** The keyword arguments of a call: the options the file inspects, and
    the rest. *)
Record kwargs : Type := mkKwargs {
  input_ids : option (list (list Z));           (* [None]: key absent *)
  num_beams : option Py.value;
  return_dict_in_generate : option Py.value;
  output_scores : option Py.value;
  prefix_allowed_tokens_fn : option filter;
  others : list (string * Py.value)            (* passed through untouched *)
}.

(** [kwargs.get(key, default)] *)
Definition get {A} (o : option A) (default : A) : A :=
  match o with
  | Some v => v
  | None => default
  end.

(** What [model.generate] returns. *)
Record generate_output : Type := mkOutput {
  sequences : list Torch.long_tensor
}.

(** The dataframe-like dictionary attached as [output.enforced_scores]. *)
Record df_dict : Type := mkDf {
  generated_token : list string;
  generated_token_idx : list Z;
  generated_score : list R;
  leading_token : list string;
  leading_token_idx : list Z;
  leading_score : list R
}.

(** The result of [generate_enforced]: the host's output, with the
    [enforced_scores] attribute when it was set. *)
Record enforced_output : Type := mkEnforced {
  output : generate_output;
  enforced_scores : option df_dict
}.

(** ** The collaborators outside this file

    One call of [model.generate] is seen from this file as the call-backs
    the host loop makes, in order, and the way the call ends. *)

Inductive host_event (config : Type) : Type :=
| EResolve (generation_config : config)
    (* [self._get_logits_warper(generation_config)]; the list it returns
       becomes the warper chain of the run *)
| EStep (step_input_ids : list (list Z)) (step_scores : Torch.tensor).
    (* one decoding step: the chain is applied to the step's scores *)

Arguments EStep {config} step_input_ids step_scores.

Record host_run (config : Type) : Type := mkRun {
  events : list (host_event config);
  outcome : result generate_output
}.

Class Host : Type := {
  config : Type;
  (** the model's own [_get_logits_warper]; each call builds a new list *)
  original_get_logits_warper : config -> list processor;
  (** a processor of the host applied to the entries of a scores tensor,
      and whether it writes the result into the tensor it was given *)
  host_call : processor -> list (list Z) -> Torch.tensor -> Torch.tensor;
  host_in_place : processor -> bool;
  (** [tokenizer.convert_ids_to_tokens([token], skip_special_tokens=False)[0]] *)
  convert_id_to_token : Z -> string;
  (** [token_enforcer.get_allowed_tokens] *)
  get_allowed_tokens : list Z -> list Z;
  (** the host loop, given the installed hook and the keyword arguments *)
  host_generate : hook -> kwargs -> host_run config
}.

(** ** [class LogitsSaverManager] *)

Definition no_manager : manager := mkManager None HNone.

Definition read_manager (self : loc) : M manager :=
  fun w => (Ok (nth self (managers w) no_manager), w).

Definition write_manager (self : loc) (f : manager -> manager) : M unit :=
  fun w => (Ok tt, set_managers (update self f (managers w)) w).

Definition read_model_hook : M hook := fun w => (Ok (model_hook w), w).

Definition write_model_hook (h : hook) : M unit :=
  fun w => (Ok tt, set_model_hook h w).

(** [sys.getrecursionlimit()] *)
Definition recursion_limit : nat := 1000.

Module LogitsSaverManager.

(** [__init__(self, model)] *)
Definition init : M loc :=
  fun w => (Ok (length (managers w)),
            set_managers (managers w ++ [mkManager None HNone]) w).

Section Closure.

Context {H : Host}.

(** Calling the value of [_get_logits_warper]: [None] is not callable;
    the model's own method returns the host's chain; the third case is the
    body of the closure [new_logits_warper], which reads [self.old_warper]
    when it is called.  [depth] bounds the nesting of closures, as the
    interpreter's recursion limit does. *)
Fixpoint call_hook (depth : nat) (h : hook) (generation_config : config)
  : M (list processor) :=
  match depth with
  | 0 => raise RecursionError
  | S depth' =>
      match h with
      | HNone => raise TypeError
      | HOriginal => ret (original_get_logits_warper generation_config)
      | HReplaced self filter_func =>
          (m <- read_manager self ;;
           warpers <- call_hook depth' (old_warper m) generation_config ;;
           s <- LogitsSaverWarper.init ;;
           write_manager self (fun m => mkManager (Some s) (old_warper m)) ;;;
           let warpers := Py.insert 0 (PSaver s) warpers in
           let warpers :=
             match filter_func with
             | Some f => Py.insert 1 (PPrefixConstrained f 1) warpers
             | None => warpers
             end in
           ret warpers)%M
      end
  end.

Definition new_logits_warper (self : loc) (filter_func : option filter)
  : config -> M (list processor) :=
  call_hook recursion_limit (HReplaced self filter_func).

End Closure.

Definition replace_logits_warper (self : loc) (filter_func : option filter)
  : M unit :=
  (h <- read_model_hook ;;
   write_manager self (fun m => mkManager (warper m) h) ;;;
   write_model_hook (HReplaced self filter_func))%M.

Definition unreplace_logits_warper (self : loc) : M unit :=
  (m <- read_manager self ;;
   write_model_hook (old_warper m))%M.

(** [self.warper.scores], with the tensors read from the store. *)
Definition warper_scores (self : loc) : M (list Torch.tensor) :=
  fun w =>
    match warper (nth self (managers w) no_manager) with
    | None => (Raise AttributeError, w)
    | Some s =>
        (Ok (map (fun t => nth t (heap w) []) (nth s (savers w) [])), w)
    end.

(** Lines 46-50, on the recorded tensors. *)
Definition generated_scores_of (scores : list Torch.tensor)
           (token_sequence : Torch.long_tensor) : result (list R) :=
  let relevant_tokens := Py.slice_last (length scores) token_sequence in
  (scores_matrix <- Torch.concat scores ;;
   let probs := Torch.softmax scores_matrix in
   Torch.index2 probs (Torch.arange (length probs)) relevant_tokens)%res.

Definition get_generated_scores (self : loc)
           (token_sequence : Torch.long_tensor) : M (list R) :=
  (scores <- warper_scores self ;;
   lift (generated_scores_of scores token_sequence))%M.

(** Lines 53-58, on the recorded tensors. *)
Definition leading_scores_of (scores : list Torch.tensor)
  : result (list Z * list R) :=
  (scores_matrix <- Torch.concat scores ;;
   let probs := Torch.softmax scores_matrix in
   best_tokens <- Torch.argmax scores_matrix ;;
   token_probs <-
     Torch.index2 probs (Torch.arange (length probs)) best_tokens ;;
   Ok (best_tokens, token_probs))%res.

Definition get_leading_scores (self : loc) : M (list Z * list R) :=
  (scores <- warper_scores self ;;
   lift (leading_scores_of scores))%M.

End LogitsSaverManager.

(** ** The host loop, as far as it calls into this file *)

Section HostLoop.

Context {H : Host}.

(** A new tensor object, as computed by the model's forward pass. *)
Definition new_tensor (t : Torch.tensor) : M loc :=
  fun w => (Ok (length (heap w)), set_heap (heap w ++ [t]) w).

(** A processor of the host: the result is written into the tensor it was
    given, or is a new tensor. *)
Definition host_processor (p : processor) (ids : list (list Z)) (scores : loc)
  : M loc :=
  fun w =>
    let t := host_call p ids (nth scores (heap w) []) in
    if host_in_place p
    then (Ok scores, set_heap (update scores (fun _ => t) (heap w)) w)
    else (Ok (length (heap w)), set_heap (heap w ++ [t]) w).

Definition call_processor (p : processor) (ids : list (list Z)) (scores : loc)
  : M loc :=
  match p with
  | PSaver s => LogitsSaverWarper.call s ids scores
  | _ => host_processor p ids scores
  end.

(** [LogitsProcessorList.__call__]: [for processor in self: scores =
    processor(input_ids, scores)]. *)
Fixpoint call_chain (chain : list processor) (ids : list (list Z))
         (scores : loc) : M loc :=
  match chain with
  | [] => ret scores
  | p :: chain' =>
      (scores' <- call_processor p ids scores ;;
       call_chain chain' ids scores')%M
  end.

(** The call-backs of one run, in order; [chain] is the list the last
    resolution returned.  An exception of a call-back ends the run. *)
Fixpoint run_events (evs : list (host_event config)) (chain : list processor)
  : M unit :=
  match evs with
  | [] => ret tt
  | EResolve generation_config :: evs' =>
      (h <- read_model_hook ;;
       chain' <- LogitsSaverManager.call_hook recursion_limit h generation_config ;;
       run_events evs' chain')%M
  | EStep ids t :: evs' =>
      (scores <- new_tensor t ;;
       call_chain chain ids scores ;;;
       run_events evs' chain)%M
  end.

(** [model.generate] called with the keyword arguments [kw] *)
Definition model_generate (kw : kwargs) : M generate_output :=
  (h <- read_model_hook ;;
   let run := host_generate h kw in
   run_events (events run) [] ;;;
   lift (outcome run))%M.

(** ** [generate_enforced] *)

Definition transformers_filter_allowed_tokens : filter :=
  fun batch_id sent => get_allowed_tokens sent.

(** [kwargs['input_ids'].shape[0] > 1] *)
Definition is_multi_inputs (kw : kwargs) : result bool :=
  match input_ids kw with
  | None => Raise KeyError
  | Some t => Ok (1 <? length t)
  end.

(** [kwargs.get('num_beams', 1) > 1] *)
Definition is_multi_beams (kw : kwargs) : result bool :=
  Py.gt_one (get (num_beams kw) (Py.VInt 1)).

Definition support_diagnostics (kw : kwargs) : result bool :=
  (a <- is_multi_inputs kw ;;
   b <- is_multi_beams kw ;;
   Ok (negb (a || b)))%res.

(** [return_dict_in_generate and output_scores and support_diagnostics] *)
Definition should_run_in_advanced_mode (kw : kwargs) : result Py.value :=
  (sd <- support_diagnostics kw ;;
   let rd := get (return_dict_in_generate kw) (Py.VBool false) in
   let os := get (output_scores kw) Py.VNone in
   Ok (Py.and_ (Py.and_ rd os) (Py.VBool sd)))%res.

(** [output.sequences[0]] *)
Definition first_sequence (out : generate_output) : result Torch.long_tensor :=
  match sequences out with
  | [] => Raise IndexError
  | s :: _ => Ok s
  end.

(** Lines 105-119: the table built after the generation call.  (Line 105
    is overwritten by line 106.) *)
Definition diagnostics (logits_saver : loc) (out : generate_output)
  : M df_dict :=
  (sequence <- lift (first_sequence out) ;;
   generated_scores <-
     LogitsSaverManager.get_generated_scores logits_saver sequence ;;
   let generated_tokens :=
     Py.slice_last (length generated_scores) sequence in
   let single_token_strs := map convert_id_to_token generated_tokens in
   ' (leading_tokens, leading_scores) <-
     LogitsSaverManager.get_leading_scores logits_saver ;;
   let leading_token_strs := map convert_id_to_token leading_tokens in
   ret (mkDf single_token_strs generated_tokens generated_scores
             leading_token_strs leading_tokens leading_scores))%M.

(** [**kwargs, prefix_allowed_tokens_fn=f]: a keyword given twice is a
    [TypeError] of the call. *)
Definition with_prefix_allowed_tokens_fn (kw : kwargs) (f : filter)
  : result kwargs :=
  match prefix_allowed_tokens_fn kw with
  | Some _ => Raise TypeError
  | None =>
      Ok (mkKwargs (input_ids kw) (num_beams kw) (return_dict_in_generate kw)
                   (output_scores kw) (Some f) (others kw))
  end.

(** The instrumented branch, lines 96-120. *)
Definition generate_advanced (kw : kwargs) : M enforced_output :=
  (logits_saver <- LogitsSaverManager.init ;;
   LogitsSaverManager.replace_logits_warper logits_saver
     (Some transformers_filter_allowed_tokens) ;;;
   let generate_kwargs := kw in
   out <- try_finally (model_generate generate_kwargs)
            (LogitsSaverManager.unreplace_logits_warper logits_saver) ;;
   df <- diagnostics logits_saver out ;;
   ret (mkEnforced out (Some df)))%M.

(** The plain branch, line 122. *)
Definition generate_plain (kw : kwargs) : M enforced_output :=
  (kw' <- lift (with_prefix_allowed_tokens_fn kw
                  transformers_filter_allowed_tokens) ;;
   out <- model_generate kw' ;;
   ret (mkEnforced out None))%M.

(** [generate_enforced], from line 85 on: the token list and the enforcer
    built on lines 78-79 are the host's [get_allowed_tokens]. *)
Definition generate_enforced (kw : kwargs) : M enforced_output :=
  (mode <- lift (should_run_in_advanced_mode kw) ;;
   if Py.truthy mode then generate_advanced kw else generate_plain kw)%M.

End HostLoop.

(** The test of line 95, as a boolean. *)
Definition advanced_mode (kw : kwargs) : result bool :=
  (mode <- should_run_in_advanced_mode kw ;; Ok (Py.truthy mode))%res.

(** Lines 96-97: the manager is created and the hook replaced. *)
Definition install {H : Host} : M loc :=
  (logits_saver <- LogitsSaverManager.init ;;
   LogitsSaverManager.replace_logits_warper logits_saver
     (Some transformers_filter_allowed_tokens) ;;;
   ret logits_saver)%M.

(** [n] calls of [unreplace_logits_warper] in a row. *)
Fixpoint release_times (n : nat) (self : loc) (w : world) : world :=
  match n with
  | 0 => w
  | S n' =>
      release_times n' self
        (snd (LogitsSaverManager.unreplace_logits_warper self w))
  end.

(** Lines 107-119 as a function of the recorded tensors and of
    [output.sequences[0]]. *)
Definition table_of {H : Host} (scores : list Torch.tensor)
           (sequence : Torch.long_tensor) : result df_dict :=
  (generated_scores <-
     LogitsSaverManager.generated_scores_of scores sequence ;;
   let generated_tokens :=
     Py.slice_last (length generated_scores) sequence in
   ' (leading_tokens, leading_scores) <-
     LogitsSaverManager.leading_scores_of scores ;;
   Ok (mkDf (map convert_id_to_token generated_tokens) generated_tokens
            generated_scores
            (map convert_id_to_token leading_tokens) leading_tokens
            leading_scores))%res.

(** Every recorded tensor is one step score vector over a vocabulary of
    [V] tokens (shape [1 x V]). *)
Definition step_vectors (V : nat) (scores : list Torch.tensor) : bool :=
  forallb (fun t => match t with
                    | [r] => length r =? V
                    | _ => false
                    end) scores.

(** A token id that indexes a vocabulary of [V] tokens. *)
Definition in_vocabulary (V : nat) (t : Z) : bool :=
  ((- Z.of_nat V <=? t) && (t <? Z.of_nat V))%Z.

(** The assertion the specification asks for: a record longer than the
    token sequence stops the reduction with an [AssertionError]. *)
Definition asserted_mismatch (scores : list Torch.tensor)
           (token_sequence : Torch.long_tensor) : Prop :=
  length token_sequence < length scores ->
  LogitsSaverManager.generated_scores_of scores token_sequence
  = Raise AssertionError.

(** The options that request diagnostics are truthy. *)
Definition diagnostics_requested (kw : kwargs) : bool :=
  Py.truthy (get (return_dict_in_generate kw) (Py.VBool false))
  && Py.truthy (get (output_scores kw) Py.VNone).

(** The condition of the mode selector, as the code computes it: at most
    one row in [input_ids], [num_beams] (1 when absent) not above 1, and
    diagnostics requested. *)
Definition qualifies (kw : kwargs) : Prop :=
  (exists t, input_ids kw = Some t /\ length t <= 1) /\
  is_multi_beams kw = Ok false /\
  diagnostics_requested kw = true.

(** The same condition in the words of the specification: exactly one
    row. *)
Definition qualifies_as_stated (kw : kwargs) : Prop :=
  (exists t, input_ids kw = Some t /\ length t = 1) /\
  is_multi_beams kw = Ok false /\
  diagnostics_requested kw = true.

(** Mode selection in the words of the specification: instrumented
    exactly under that condition, plain in every other case. *)
Definition mode_selection_as_stated (kw : kwargs) : Prop :=
  (advanced_mode kw = Ok true <-> qualifies_as_stated kw) /\
  (~ qualifies_as_stated kw -> advanced_mode kw = Ok false).

(** The release is not idempotent: some second release changes the
    state the first one left. *)
Definition release_not_idempotent : Prop :=
  exists self w,
    snd (LogitsSaverManager.unreplace_logits_warper self
           (snd (LogitsSaverManager.unreplace_logits_warper self w)))
    <> snd (LogitsSaverManager.unreplace_logits_warper self w).

(** What a generation call leaves alone: the saved methods of all
    managers and the model's hook. *)
Definition stable (w w' : world) : Prop :=
  map old_warper (managers w') = map old_warper (managers w) /\
  model_hook w' = model_hook w.

(** A chain of the host's own making holds no recorder of this file. *)
Definition host_only (chain : list processor) : bool :=
  forallb (fun p => match p with
                    | PSaver _ => false
                    | _ => true
                    end) chain.

(** The call-backs of a run that resolves the chain once and then
    performs the given decoding steps. *)
Definition resolve_then_steps {config : Type} (generation_config : config)
           (steps : list (list (list Z) * Torch.tensor))
  : list (host_event config) :=
  EResolve generation_config
  :: map (fun st => EStep (fst st) (snd st)) steps.

(** The tensors behind a list of references. *)
Definition deref (w : world) (refs : list loc) : list Torch.tensor :=
  map (fun t => nth t (heap w) []) refs.

(** The state of a session whose recorder [s] holds copies of the tensors
    [recorded]. *)
Definition recording (self s : loc) (recorded : list Torch.tensor)
           (w : world) : Prop :=
  warper (nth self (managers w) no_manager) = Some s /\
  s < length (savers w) /\
  Forall (fun p => p < length (heap w)) (nth s (savers w) []) /\
  deref w (nth s (savers w) []) = recorded.

(** A session of manager [self] is installed over the model's own
    method. *)
Definition session (self : loc) (filter_func : option filter) (w : world)
  : Prop :=
  model_hook w = HReplaced self filter_func /\
  self < length (managers w) /\
  old_warper (nth self (managers w) no_manager) = HOriginal.

(** The chain the replacement function builds around recorder [s]. *)
Definition session_chain {H : Host} (filter_func : option filter)
           (generation_config : config) (s : loc) : list processor :=
  PSaver s
  :: match filter_func with
     | Some f =>
         PPrefixConstrained f 1 :: original_get_logits_warper generation_config
     | None => original_get_logits_warper generation_config
     end.

(** ** Concrete instances, for the examples below *)

Module Demo.

(** A host over a three-token vocabulary whose generation call always
    behaves as [run] says. *)
Definition scripted (run : host_run unit) : Host :=
  {| config := unit;
     original_get_logits_warper := fun _ => [PHost 0];
     host_call := fun _ _ t => t;
     host_in_place := fun _ => false;
     convert_id_to_token := fun z => if (z =? 0)%Z then "A"%string
                                      else if (z =? 1)%Z then "B"%string
                                      else "C"%string;
     get_allowed_tokens := fun _ => [1%Z; 2%Z];
     host_generate := fun _ _ => run |}.

(** Prompt [A], then two decoding steps that emit [B] and [C]. *)
Definition two_steps : host_run unit :=
  mkRun [EResolve tt;
         EStep [[0%Z]] [[0%R; 1%R; 0%R]];
         EStep [[0%Z; 1%Z]] [[0%R; 0%R; 1%R]]]
        (Ok (mkOutput [[0%Z; 1%Z; 2%Z]])).

(** The chain is resolved and the loop stops before the first step. *)
Definition no_step : host_run unit :=
  mkRun [EResolve tt] (Ok (mkOutput [[0%Z]])).

(** The host loop fails after one step. *)
Definition failing : host_run unit :=
  mkRun [EResolve tt; EStep [[0%Z]] [[0%R; 1%R; 0%R]]] (Raise (HostError 7)).

(** A model that nothing has touched yet. *)
Definition pristine : world := mkWorld [] [] [] HOriginal.

(** The state in which [two_steps] leaves the manager created on
    [pristine]. *)
Definition recorded : world :=
  mkWorld [[[0%R; 1%R; 0%R]]; [[0%R; 1%R; 0%R]];
           [[0%R; 1%R; 0%R]]; [[0%R; 1%R; 0%R]];
           [[0%R; 0%R; 1%R]]; [[0%R; 0%R; 1%R]];
           [[0%R; 0%R; 1%R]]; [[0%R; 0%R; 1%R]]]
          [[1; 5]]
          [mkManager (Some 0) HOriginal]
          HOriginal.

(** The tensors the recorder holds in [recorded]. *)
Definition recorded_scores : list Torch.tensor :=
  [[[0%R; 1%R; 0%R]]; [[0%R; 0%R; 1%R]]].

(** Two recorded steps over two tokens, with the same scores. *)
Definition flat_scores : list Torch.tensor :=
  [[[0%R; 0%R]]; [[0%R; 0%R]]].

Definition yes : option Py.value := Some (Py.VBool true).

(** One prompt, diagnostics requested. *)
Definition kw_single : kwargs :=
  mkKwargs (Some [[0%Z]]) None yes yes None [].

(** An input tensor with no row, diagnostics requested. *)
Definition kw_empty_batch : kwargs :=
  mkKwargs (Some []) None yes yes None [].

(** A call without [input_ids], diagnostics requested. *)
Definition kw_no_input : kwargs :=
  mkKwargs None None yes yes None [].

(** Two prompts, diagnostics requested. *)
Definition kw_pair : kwargs :=
  mkKwargs (Some [[0%Z]; [0%Z]]) None yes yes None [].

(** Two prompts, diagnostics requested, and a prefix function of the
    caller's own. *)
Definition kw_pair_prefix : kwargs :=
  mkKwargs (Some [[0%Z]; [0%Z]]) None yes yes (Some (fun _ _ => [1%Z])) [].

End Demo.

(** ** [_build_regular_tokens_list]

    The tokenizer is the host's: what the function reads of it. *)

Record tokenizer : Type := mkTokenizer {
  encode : string -> list Z;
  decode : list Z -> string;
  vocab_size : Z;
  all_special_ids : list Z
}.

(** [l[-1]]: an empty list has no last item. *)
Definition last_item (l : list Z) : result Z :=
  match rev l with
  | [] => Raise IndexError
  | x :: _ => Ok x
  end.

(** [s[1:]]: the empty string stays empty. *)
Definition drop_first (s : string) : string :=
  match s with
  | EmptyString => EmptyString
  | String _ s' => s'
  end.

(** [range(n)]: empty when [n <= 0]. *)
Definition py_range (n : Z) : list Z := map Z.of_nat (seq 0 (Z.to_nat n)).

(** [x in l] *)
Definition py_in (x : Z) (l : list Z) : bool := existsb (Z.eqb x) l.

(** The loop of lines 64-69 over the ids still to visit, [regular_tokens]
    being the list built so far. *)
Fixpoint regular_tokens_loop (tok : tokenizer) (token_0 : Z)
         (ids : list Z) (regular_tokens : list (Z * string))
  : list (Z * string) :=
  match ids with
  | [] => regular_tokens
  | token_idx :: ids' =>
      if py_in token_idx (all_special_ids tok)
      then regular_tokens_loop tok token_0 ids' regular_tokens
      else
        let decoded := drop_first (decode tok [token_0; token_idx]) in
        regular_tokens_loop tok token_0 ids'
          (regular_tokens ++ [(token_idx, decoded)])
  end.

Definition _build_regular_tokens_list (tok : tokenizer)
  : result (list (Z * string)) :=
  (token_0 <- last_item (encode tok "0") ;;
   Ok (regular_tokens_loop tok token_0 (py_range (vocab_size tok)) []))%res.

(** [generate_enforced] from its first line.  Line 78 builds the token
    list, and its exception is the call's.  Line 79 constructs the token
    enforcer from the list; the constructor belongs to another file and is
    taken to return: [host_of regular_tokens] is the host with the
    [get_allowed_tokens] of that enforcer. *)
Definition generate_enforced_entry (tok : tokenizer)
           (host_of : list (Z * string) -> Host) (kw : kwargs)
  : M enforced_output :=
  fun w =>
    match _build_regular_tokens_list tok with
    | Raise e => (Raise e, w)
    | Ok regular_tokens =>
        generate_enforced (H := host_of regular_tokens) kw w
    end.

(** A call shape that rules out diagnostics, in the words of the
    specification: more than one input sequence, or more than one beam. *)
Definition shape_disqualifies (kw : kwargs) : Prop :=
  (exists t, input_ids kw = Some t /\ 1 < length t) \/
  (exists z, num_beams kw = Some (Py.VInt z) /\ (1 < z)%Z).

(** Fallback correctness in the words of the specification: on a call of
    such a shape, an exception of [generate_enforced] is an exception of
    the host's [generate]. *)
Definition fallback_as_stated (tok : tokenizer)
           (host_of : list (Z * string) -> Host) (kw : kwargs) (w : world)
  : Prop :=
  shape_disqualifies kw ->
  forall e,
    fst (generate_enforced_entry tok host_of kw w) = Raise e ->
    exists regular_tokens kw',
      fst (model_generate (H := host_of regular_tokens) kw' w) = Raise e.

(** The call-backs of a run that performs decoding steps without ever
    resolving the chain. *)
Definition steps_only {config : Type}
           (steps : list (list (list Z) * Torch.tensor))
  : list (host_event config) :=
  map (fun st => EStep (fst st) (snd st)) steps.

(** The call-backs of a run that resolves the chain, performs decoding
    steps, resolves the chain again and performs more steps. *)
Definition resolve_twice {config : Type} (config1 config2 : config)
           (steps1 steps2 : list (list (list Z) * Torch.tensor))
  : list (host_event config) :=
  (EResolve config1 :: steps_only steps1)
  ++ (EResolve config2 :: steps_only steps2).

Module Demo2.

(** A tokenizer over five ids of which the first and the last are
    special; [encode] gives a start marker and the id of the text. *)
Definition tok : tokenizer :=
  mkTokenizer (fun _ => [0%Z; 3%Z])
              (fun ids => if (nth 1 ids 0%Z =? 1)%Z then "0 a"%string
                          else "0b"%string)
              5 [0%Z; 4%Z].

(** The chain is never resolved (greedy decoding in a host that resolves
    warpers for sampling only). *)
Definition unresolved : host_run unit :=
  mkRun (steps_only [([[0%Z]], [[0%R; 1%R; 0%R]])])
        (Ok (mkOutput [[0%Z; 1%Z]])).

(** The host returns no sequence at all. *)
Definition no_sequence : host_run unit :=
  mkRun [EResolve tt; EStep [[0%Z]] [[0%R; 1%R; 0%R]]] (Ok (mkOutput [])).

(** The chain is resolved again after the first step. *)
Definition resolved_twice : host_run unit :=
  mkRun (resolve_twice tt tt [([[0%Z]], [[0%R; 1%R; 0%R]])]
                             [([[0%Z; 1%Z]], [[0%R; 0%R; 1%R]])])
        (Ok (mkOutput [[0%Z; 1%Z; 2%Z]])).

(** A tokenizer whose [encode] returns no id. *)
Definition tok_silent : tokenizer :=
  mkTokenizer (fun _ => []) (fun _ => "0b"%string) 5 [0%Z; 4%Z].

(** Two prompts and [num_beams=None], diagnostics requested. *)
Definition kw_pair_none_beams : kwargs :=
  mkKwargs (Some [[0%Z]; [0%Z]]) (Some Py.VNone) Demo.yes Demo.yes None [].

(** Two beams and no [input_ids], diagnostics requested. *)
Definition kw_beams_no_input : kwargs :=
  mkKwargs None (Some (Py.VInt 2)) Demo.yes Demo.yes None [].

(** The host of the examples, whatever the token list. *)
Definition host_of (regular_tokens : list (Z * string)) : Host :=
  Demo.scripted Demo.two_steps.

(** A call with [num_beams=None]. *)
Definition kw_none_beams : kwargs :=
  mkKwargs (Some [[0%Z]]) (Some Py.VNone) Demo.yes Demo.yes None [].

(** A model and two managers that have not been used. *)
Definition two_managers : world :=
  mkWorld [] [] [no_manager; no_manager] HOriginal.

End Demo2.

(** * Properties *)

Unset Implicit Arguments.

(** ** The result monad and [mapM] *)

Lemma mapM_length A B (f : A -> result B) l bs :
  mapM f l = Ok bs -> length bs = length l.
Proof.
  revert bs; induction l as [|a l IH]; intros bs; simpl.
  - intros E; inversion E; reflexivity.
  - destruct (f a) as [b|e]; [|discriminate].
    destruct (mapM f l) as [bs'|e]; [|discriminate].
    intros E; inversion E; subst; simpl; f_equal; auto.
Qed.

Lemma mapM_nth_error A B (f : A -> result B) l bs :
  mapM f l = Ok bs ->
  forall i b, nth_error bs i = Some b ->
  exists a, nth_error l i = Some a /\ f a = Ok b.
Proof.
  revert bs; induction l as [|a l IH]; intros bs; simpl.
  - intros E; inversion E; subst. intros [|i] b; discriminate.
  - destruct (f a) as [b0|e] eqn:Ea; [|discriminate].
    destruct (mapM f l) as [bs'|e]; [|discriminate].
    intros E; inversion E; subst. intros [|i] b; simpl.
    + intros Eb; inversion Eb; subst. exists a; split; auto.
    + intros Eb. apply (IH bs' eq_refl i b Eb).
Qed.

Lemma mapM_total A B (f : A -> result B) l :
  (forall a, In a l -> exists b, f a = Ok b) ->
  exists bs, mapM f l = Ok bs.
Proof.
  induction l as [|a l IH]; intros Hf; simpl.
  - eexists; reflexivity.
  - destruct (Hf a (or_introl eq_refl)) as [b Eb]. rewrite Eb.
    destruct IH as [bs Ebs].
    + intros a' Ha'. apply Hf. right; exact Ha'.
    + rewrite Ebs. eexists; reflexivity.
Qed.

Lemma mapM_never A B (f : A -> result B) l e0 :
  (forall a, f a <> Raise e0) -> mapM f l <> Raise e0.
Proof.
  intros Hf. induction l as [|a l IH]; simpl.
  - discriminate.
  - destruct (f a) as [b|e] eqn:Ea.
    + destruct (mapM f l) as [bs|e]; [discriminate|].
      intros E; apply IH; inversion E; reflexivity.
    + intros E; apply (Hf a). rewrite Ea. inversion E; reflexivity.
Qed.

(** ** Softmax and argmax over the reals *)

Lemma sum_exp_nonneg r : (0 <= Torch.sum_exp r)%R.
Proof.
  induction r as [|x r IH]; simpl.
  - lra.
  - pose proof (exp_pos x). lra.
Qed.

Lemma sum_exp_pos x r : (0 < Torch.sum_exp (x :: r))%R.
Proof.
  simpl. pose proof (exp_pos x). pose proof (sum_exp_nonneg r). lra.
Qed.

Lemma exp_le_mono x y : (x <= y)%R -> (exp x <= exp y)%R.
Proof.
  intros [Hlt|Heq].
  - left. apply exp_increasing. exact Hlt.
  - subst. lra.
Qed.

Lemma softmax_row_In p r :
  In p (Torch.softmax_row r) ->
  exists x, In x r /\ p = (exp x / Torch.sum_exp r)%R.
Proof.
  unfold Torch.softmax_row. rewrite in_map_iff.
  intros [x [E Hx]]. exists x; split; auto.
Qed.

Lemma softmax_row_nth r j v :
  nth_error (Torch.softmax_row r) j = Some v ->
  exists x, nth_error r j = Some x /\ v = (exp x / Torch.sum_exp r)%R.
Proof.
  unfold Torch.softmax_row. rewrite nth_error_map.
  destruct (nth_error r j) as [x|]; simpl; [|discriminate].
  intros E; inversion E. exists x; split; auto.
Qed.

Lemma softmax_le r x y :
  In x r -> (x <= y)%R ->
  (exp x / Torch.sum_exp r <= exp y / Torch.sum_exp r)%R.
Proof.
  intros Hx Hle. destruct r as [|z r]; [contradiction|].
  pose proof (sum_exp_pos z r) as Hpos.
  apply exp_le_mono in Hle.
  unfold Rdiv. apply Rmult_le_compat_r; [|exact Hle].
  left. apply Rinv_0_lt_compat. exact Hpos.
Qed.

Lemma argmax_ne_lt x r : Torch.argmax_ne x r < length (x :: r).
Proof.
  revert x; induction r as [|y r IH]; intros x; simpl.
  - lia.
  - destruct (Rlt_dec x _); [|lia].
    specialize (IH y). simpl in IH. lia.
Qed.

Lemma argmax_ne_max x r y :
  In y (x :: r) -> (y <= nth (Torch.argmax_ne x r) (x :: r) 0)%R.
Proof.
  revert x y; induction r as [|z r IH]; intros x y.
  - simpl. intros [E|[]]; subst; lra.
  - intros Hy. cbn [Torch.argmax_ne].
    destruct (Rlt_dec x (nth (Torch.argmax_ne z r) (z :: r) 0%R)) as [Hlt|Hge].
    + change (nth (S (Torch.argmax_ne z r)) (x :: z :: r) 0%R)
        with (nth (Torch.argmax_ne z r) (z :: r) 0%R).
      destruct Hy as [E|Hy].
      * subst. lra.
      * apply IH. exact Hy.
    + change (nth 0 (x :: z :: r) 0%R) with x.
      destruct Hy as [E|Hy].
      * subst. lra.
      * specialize (IH z y Hy). lra.
Qed.

(** ** Concatenation, broadcasting and indexing *)

Lemma concat_ok scores m :
  Torch.concat scores = Ok m ->
  m = List.concat scores /\ scores <> [] /\ Torch.same_width m = true.
Proof.
  unfold Torch.concat. destruct scores as [|t ts]; [discriminate|].
  destruct (Torch.same_width (List.concat (t :: ts))) eqn:Ew; [|discriminate].
  intros E; inversion E; subst. repeat split; auto. discriminate.
Qed.

Lemma combine_seq_fst B a k (ys : list B) i p :
  nth_error (combine (seq a k) ys) i = Some p -> fst p = a + i.
Proof.
  revert a ys i; induction k as [|k IH]; intros a ys i; simpl.
  - destruct i; discriminate.
  - destruct ys as [|y ys]; [destruct i; discriminate|].
    destruct i as [|i]; simpl.
    + intros E; inversion E; simpl; lia.
    + intros E. apply IH in E. lia.
Qed.

Lemma combine_seq_nth B a k (ys : list B) i y :
  i < k -> nth_error ys i = Some y ->
  nth_error (combine (seq a k) ys) i = Some (a + i, y).
Proof.
  revert a ys i; induction k as [|k IH]; intros a ys i Hi; [lia|].
  destruct ys as [|y0 ys]; [destruct i; discriminate|].
  destruct i as [|i]; simpl.
  - intros E; inversion E. rewrite Nat.add_0_r. reflexivity.
  - intros E. rewrite (IH (S a) ys i); [f_equal; f_equal; lia|lia|exact E].
Qed.

Lemma broadcast_same A B (xs : list A) (ys : list B) :
  length xs = length ys -> Torch.broadcast xs ys = Ok (combine xs ys).
Proof.
  intros E. unfold Torch.broadcast. rewrite E, Nat.eqb_refl. reflexivity.
Qed.

Lemma broadcast_arange_fst k (ys : list Z) ps i p :
  Torch.broadcast (Torch.arange k) ys = Ok ps ->
  nth_error ps i = Some p -> i < k -> fst p = i.
Proof.
  unfold Torch.broadcast, Torch.arange.
  destruct (length (seq 0 k) =? length ys).
  - intros E Hp _; inversion E; subst.
    apply combine_seq_fst in Hp. exact Hp.
  - destruct k as [|[|k]].
    + intros _ _ Hi; lia.
    + change (seq 0 1) with [0].
      intros E Hp Hi. assert (i = 0) by lia; subst i.
      assert (Eps : ps = map (pair 0) ys)
        by (destruct ys as [|y [|y' ys]]; inversion E; reflexivity).
      subst ps. rewrite nth_error_map in Hp.
      destruct (nth_error ys 0); simpl in Hp; [|discriminate].
      inversion Hp; reflexivity.
    + change (seq 0 (S (S k))) with (0 :: 1 :: seq 2 k).
      destruct ys as [|y [|y' ys]]; try discriminate.
      intros E Hp Hi.
      assert (Eps : ps = map (fun x => (x, y)) (0 :: 1 :: seq 2 k))
        by (inversion E; reflexivity).
      subst ps. rewrite nth_error_map in Hp.
      destruct (nth_error (0 :: 1 :: seq 2 k) i) as [x|] eqn:Ex;
        simpl in Hp; [|discriminate].
      inversion Hp; subst; simpl.
      change (0 :: 1 :: seq 2 k) with (seq 0 (S (S k))) in Ex.
      apply nth_error_nth with (d := 0) in Ex.
      rewrite seq_nth in Ex by lia. lia.
Qed.

Lemma at_In m p v :
  Torch.at_ m p = Ok v ->
  exists row, nth_error m (fst p) = Some row /\ In v row.
Proof.
  unfold Torch.at_. destruct (nth_error m (fst p)) as [row|]; [|discriminate].
  destruct (Torch.norm_index (length row) (snd p)) as [j|]; [|discriminate].
  destruct (nth_error row j) as [v'|] eqn:Ev; [|discriminate].
  intros E; inversion E; subst. exists row; split; auto.
  eapply nth_error_In; eauto.
Qed.

Lemma norm_index_nat n j :
  j < n -> Torch.norm_index n (Z.of_nat j) = Ok j.
Proof.
  intros Hj. unfold Torch.norm_index.
  replace (0 <=? Z.of_nat j)%Z with true by (symmetry; apply Z.leb_le; lia).
  replace (Z.of_nat j <? Z.of_nat n)%Z with true
    by (symmetry; apply Z.ltb_lt; lia).
  simpl. rewrite Nat2Z.id. reflexivity.
Qed.

Lemma norm_index_ok n i :
  (- Z.of_nat n <= i < Z.of_nat n)%Z ->
  exists j, Torch.norm_index n i = Ok j /\ j < n.
Proof.
  intros Hi. unfold Torch.norm_index.
  destruct (0 <=? i)%Z eqn:E0.
  - apply Z.leb_le in E0.
    replace (i <? Z.of_nat n)%Z with true by (symmetry; apply Z.ltb_lt; lia).
    simpl. exists (Z.to_nat i); split; [reflexivity|lia].
  - apply Z.leb_gt in E0. simpl.
    replace (- Z.of_nat n <=? i)%Z with true by (symmetry; apply Z.leb_le; lia).
    replace (i <? 0)%Z with true by (symmetry; apply Z.ltb_lt; lia).
    simpl. exists (Z.to_nat (i + Z.of_nat n)); split; [reflexivity|lia].
Qed.

(** The probability read at the argmax of a row of scores bounds every
    probability of that row's distribution. *)
Lemma at_argmax_max m i row a l :
  nth_error m i = Some row ->
  Torch.argmax_row row = Ok a ->
  Torch.at_ (Torch.softmax m) (i, a) = Ok l ->
  forall p, In p (Torch.softmax_row row) -> (p <= l)%R.
Proof.
  intros Hrow Ha Hat p Hp.
  destruct row as [|x r]; [discriminate|].
  simpl in Ha. inversion Ha; subst a; clear Ha.
  unfold Torch.at_, Torch.softmax in Hat. simpl fst in Hat; simpl snd in Hat.
  rewrite nth_error_map, Hrow in Hat. simpl option_map in Hat.
  cbv beta iota in Hat.
  pose proof (argmax_ne_lt x r) as Hlt.
  rewrite norm_index_nat in Hat
    by (unfold Torch.softmax_row; rewrite length_map; exact Hlt).
  destruct (nth_error (Torch.softmax_row (x :: r)) (Torch.argmax_ne x r))
    as [l'|] eqn:El; [|discriminate].
  inversion Hat; subst l'; clear Hat.
  apply softmax_row_nth in El. destruct El as [xm [Exm El]]. subst l.
  apply softmax_row_In in Hp. destruct Hp as [y [Hy Ep]]. subst p.
  apply softmax_le; [exact Hy|].
  apply nth_error_nth with (d := 0%R) in Exm. rewrite <- Exm.
  apply argmax_ne_max. exact Hy.
Qed.

Lemma combine_nth_error_snd A B (xs : list A) (ys : list B) i p :
  nth_error (combine xs ys) i = Some p -> nth_error ys i = Some (snd p).
Proof.
  revert ys i; induction xs as [|x xs IH]; intros ys i; simpl.
  - destruct i; discriminate.
  - destruct ys as [|y ys]; [destruct i; discriminate|].
    destruct i as [|i]; simpl.
    + intros E; inversion E; reflexivity.
    + apply IH.
Qed.

Lemma softmax_length m : length (Torch.softmax m) = length m.
Proof. unfold Torch.softmax. apply length_map. Qed.

(** ** What the two reductions compute *)

Lemma generated_scores_inv scores token_sequence gs :
  LogitsSaverManager.generated_scores_of scores token_sequence = Ok gs ->
  exists m ps,
    Torch.concat scores = Ok m /\
    Torch.broadcast (Torch.arange (length m))
      (Py.slice_last (length scores) token_sequence) = Ok ps /\
    mapM (Torch.at_ (Torch.softmax m)) ps = Ok gs.
Proof.
  unfold LogitsSaverManager.generated_scores_of.
  destruct (Torch.concat scores) as [m|e]; [|discriminate].
  simpl rbind. unfold Torch.index2. rewrite softmax_length.
  destruct (Torch.broadcast _ _) as [ps|e] eqn:Hb; [|discriminate].
  intros E. exists m, ps. auto.
Qed.

Lemma leading_scores_inv scores bt ls :
  LogitsSaverManager.leading_scores_of scores = Ok (bt, ls) ->
  exists m,
    Torch.concat scores = Ok m /\
    Torch.argmax m = Ok bt /\
    length bt = length m /\
    mapM (Torch.at_ (Torch.softmax m)) (combine (seq 0 (length m)) bt) = Ok ls.
Proof.
  unfold LogitsSaverManager.leading_scores_of.
  destruct (Torch.concat scores) as [m|e]; [|discriminate].
  simpl rbind. destruct (Torch.argmax m) as [bt'|e] eqn:Ea; [|discriminate].
  simpl rbind. pose proof (mapM_length _ _ _ _ _ Ea) as Hlen.
  unfold Torch.index2, Torch.arange. rewrite softmax_length.
  rewrite broadcast_same by (rewrite length_seq; auto).
  destruct (mapM _ _) as [ls'|e] eqn:El; [|discriminate].
  simpl. intros E; inversion E; subst. exists m. auto.
Qed.

Lemma get_generated_scores_eq self token_sequence w :
  LogitsSaverManager.get_generated_scores self token_sequence w =
  (rbind (fst (LogitsSaverManager.warper_scores self w))
         (fun s => LogitsSaverManager.generated_scores_of s token_sequence), w).
Proof.
  unfold LogitsSaverManager.get_generated_scores, bind, lift,
    LogitsSaverManager.warper_scores.
  destruct (warper _); reflexivity.
Qed.

Lemma get_leading_scores_eq self w :
  LogitsSaverManager.get_leading_scores self w =
  (rbind (fst (LogitsSaverManager.warper_scores self w))
         LogitsSaverManager.leading_scores_of, w).
Proof.
  unfold LogitsSaverManager.get_leading_scores, bind, lift,
    LogitsSaverManager.warper_scores.
  destruct (warper _); reflexivity.
Qed.

Lemma ordering_core scores token_sequence gs bt ls m i g l dist :
  LogitsSaverManager.generated_scores_of scores token_sequence = Ok gs ->
  LogitsSaverManager.leading_scores_of scores = Ok (bt, ls) ->
  Torch.concat scores = Ok m ->
  nth_error gs i = Some g ->
  nth_error ls i = Some l ->
  nth_error (Torch.softmax m) i = Some dist ->
  In g dist /\ In l dist /\ (g <= l)%R /\
  (g = l <-> forall p, In p dist -> (p <= g)%R).
Proof.
  intros Hg Hl Hm Eg El Ed.
  apply generated_scores_inv in Hg. destruct Hg as [m1 [ps [Hm1 [Hb Hgs]]]].
  apply leading_scores_inv in Hl. destruct Hl as [m2 [Hm2 [Ha [Hlen Hls]]]].
  rewrite Hm in Hm1, Hm2. inversion Hm1; inversion Hm2; subst m1 m2.
  clear Hm1 Hm2.
  destruct (mapM_nth_error _ _ _ _ _ Hls _ _ El) as [[i' a] [Hq Hat]].
  pose proof (combine_seq_fst _ _ _ _ _ _ Hq) as Hi'. simpl in Hi'. subst i'.
  apply combine_nth_error_snd in Hq. simpl in Hq.
  destruct (mapM_nth_error _ _ _ _ _ Ha _ _ Hq) as [row [Hrow Harg]].
  assert (Hi : i < length m) by (apply nth_error_Some; congruence).
  destruct (mapM_nth_error _ _ _ _ _ Hgs _ _ Eg) as [[i' j] [Hp Hatg]].
  pose proof (broadcast_arange_fst _ _ _ _ _ Hb Hp Hi) as Hi'.
  simpl in Hi'. subst i'.
  assert (Hdist : dist = Torch.softmax_row row).
  { unfold Torch.softmax in Ed. rewrite nth_error_map, Hrow in Ed.
    inversion Ed; reflexivity. }
  destruct (at_In _ _ _ Hatg) as [d1 [Hd1 Hin1]]. simpl in Hd1.
  destruct (at_In _ _ _ Hat) as [d2 [Hd2 Hin2]]. simpl in Hd2.
  rewrite Ed in Hd1, Hd2. inversion Hd1; inversion Hd2; subst d1 d2.
  pose proof (at_argmax_max _ _ _ _ _ Hrow Harg Hat) as Hmax.
  rewrite <- Hdist in Hmax.
  split; [exact Hin1|]. split; [exact Hin2|].
  split; [apply Hmax; exact Hin1|].
  split.
  - intros E p Hp'. rewrite E. apply Hmax; exact Hp'.
  - intros Hall. apply Rle_antisym; [apply Hmax; exact Hin1|].
    apply Hall. exact Hin2.
Qed.

Lemma diagnostics_eq {H : Host} self out w :
  diagnostics self out w =
  (rbind (first_sequence out) (fun sequence =>
   rbind (fst (LogitsSaverManager.warper_scores self w)) (fun scores =>
   table_of scores sequence)), w).
Proof.
  unfold diagnostics, bind, lift.
  destruct (first_sequence out) as [sequence|e]; [|reflexivity].
  rewrite get_generated_scores_eq. simpl rbind at 1.
  unfold table_of.
  destruct (fst (LogitsSaverManager.warper_scores self w)) as [scores|e] eqn:Es;
    [|reflexivity].
  simpl rbind.
  destruct (LogitsSaverManager.generated_scores_of scores sequence)
    as [gs|e]; [|reflexivity].
  simpl rbind. rewrite get_leading_scores_eq, Es. simpl rbind.
  destruct (LogitsSaverManager.leading_scores_of scores) as [[bt ls]|e];
    reflexivity.
Qed.

(** ** Shapes of the recorded step vectors *)

Lemma step_vectors_concat V scores :
  step_vectors V scores = true ->
  length (List.concat scores) = length scores /\
  Forall (fun r => length r = V) (List.concat scores).
Proof.
  induction scores as [|t ts IH]; simpl.
  - intros _; split; [reflexivity|constructor].
  - destruct t as [|r [|r' t']]; try discriminate.
    rewrite andb_true_iff. intros [Hr Hts]. apply Nat.eqb_eq in Hr.
    destruct (IH Hts) as [Hlen Hall]. simpl. split.
    + f_equal. exact Hlen.
    + constructor; assumption.
Qed.

Lemma same_width_Forall V (m : Torch.tensor) :
  Forall (fun r => length r = V) m -> Torch.same_width m = true.
Proof.
  intros Hall. destruct m as [|r m]; [reflexivity|]. simpl.
  inversion Hall as [|? ? Hr Hm]; subst.
  apply forallb_forall. intros r' Hr'.
  rewrite Forall_forall in Hm. apply Nat.eqb_eq. rewrite (Hm r' Hr'). auto.
Qed.

Lemma step_vectors_concat_ok V scores :
  step_vectors V scores = true -> scores <> [] ->
  Torch.concat scores = Ok (List.concat scores).
Proof.
  intros Hsv Hne. unfold Torch.concat.
  destruct scores as [|t ts]; [contradiction|].
  destruct (step_vectors_concat V _ Hsv) as [_ Hall].
  rewrite (same_width_Forall V _ Hall). reflexivity.
Qed.

Lemma slice_last_pos A k (l : list A) :
  k <> 0 -> Py.slice_last k l = skipn (length l - k) l.
Proof.
  intros Hk. unfold Py.slice_last.
  destruct (Nat.eqb_spec k 0); [contradiction|reflexivity].
Qed.

Lemma slice_last_length A k (l : list A) :
  k <> 0 -> k <= length l -> length (Py.slice_last k l) = k.
Proof.
  intros Hk Hle. rewrite slice_last_pos by exact Hk.
  rewrite length_skipn. lia.
Qed.

Lemma in_vocabulary_range V t :
  in_vocabulary V t = true -> (- Z.of_nat V <= t < Z.of_nat V)%Z.
Proof.
  unfold in_vocabulary. rewrite andb_true_iff, Z.leb_le, Z.ltb_lt. tauto.
Qed.

Lemma at_total m V i t :
  i < length m -> Forall (fun r => length r = V) m ->
  in_vocabulary V t = true ->
  exists v, Torch.at_ (Torch.softmax m) (i, t) = Ok v.
Proof.
  intros Hi Hall Ht.
  destruct (nth_error m i) as [row|] eqn:Hrow;
    [|apply nth_error_None in Hrow; lia].
  assert (Hlen : length row = V).
  { rewrite Forall_forall in Hall. apply Hall.
    eapply nth_error_In; eauto. }
  unfold Torch.at_, Torch.softmax. simpl fst; simpl snd.
  rewrite nth_error_map, Hrow. simpl option_map. cbv beta iota.
  unfold Torch.softmax_row at 1. rewrite length_map, Hlen.
  destruct (norm_index_ok V t (in_vocabulary_range _ _ Ht)) as [j [Ej Hj]].
  rewrite Ej.
  destruct (nth_error (Torch.softmax_row row) j) as [v|] eqn:Ev.
  - exists v; reflexivity.
  - apply nth_error_None in Ev. unfold Torch.softmax_row in Ev.
    rewrite length_map in Ev. lia.
Qed.

Lemma argmax_row_range row a :
  Torch.argmax_row row = Ok a -> in_vocabulary (length row) a = true.
Proof.
  destruct row as [|x r]; [discriminate|]. simpl Torch.argmax_row.
  intros E; inversion E; subst a.
  pose proof (argmax_ne_lt x r) as Hlt.
  unfold in_vocabulary. apply andb_true_iff. split.
  - apply Z.leb_le. lia.
  - apply Z.ltb_lt. lia.
Qed.

Lemma mapM_In A B (f : A -> result B) l bs b :
  mapM f l = Ok bs -> In b bs -> exists a, In a l /\ f a = Ok b.
Proof.
  intros Hm Hb. apply In_nth_error in Hb. destruct Hb as [i Hi].
  destruct (mapM_nth_error _ _ _ _ _ Hm _ _ Hi) as [a [Ha Hf]].
  exists a; split; [eapply nth_error_In; eauto|exact Hf].
Qed.

(** ** The reductions on well-shaped records *)

Lemma generated_scores_length V scores token_sequence gs :
  step_vectors V scores = true ->
  length scores <= length token_sequence ->
  LogitsSaverManager.generated_scores_of scores token_sequence = Ok gs ->
  length gs = length scores /\ scores <> [].
Proof.
  intros Hsv Hle Hg.
  apply generated_scores_inv in Hg. destruct Hg as [m [ps [Hm [Hb Hgs]]]].
  apply concat_ok in Hm. destruct Hm as [Em [Hne _]]. subst m.
  destruct (step_vectors_concat V _ Hsv) as [Hlen _].
  assert (Hk : length scores <> 0) by (destruct scores; [contradiction|discriminate]).
  rewrite Hlen in Hb.
  rewrite broadcast_same in Hb
    by (unfold Torch.arange; rewrite length_seq, slice_last_length; auto).
  inversion Hb; subst ps; clear Hb.
  apply mapM_length in Hgs. rewrite Hgs, length_combine.
  unfold Torch.arange. rewrite length_seq, slice_last_length by auto.
  split; [lia|exact Hne].
Qed.

Lemma generated_scores_total V scores token_sequence :
  step_vectors V scores = true ->
  scores <> [] ->
  length scores <= length token_sequence ->
  forallb (in_vocabulary V)
    (skipn (length token_sequence - length scores) token_sequence) = true ->
  exists gs,
    LogitsSaverManager.generated_scores_of scores token_sequence = Ok gs.
Proof.
  intros Hsv Hne Hle Htok.
  unfold LogitsSaverManager.generated_scores_of.
  rewrite (step_vectors_concat_ok V _ Hsv Hne). simpl rbind.
  destruct (step_vectors_concat V _ Hsv) as [Hlen Hall].
  assert (Hk : length scores <> 0) by (destruct scores; [contradiction|discriminate]).
  unfold Torch.index2. rewrite softmax_length, Hlen.
  rewrite broadcast_same
    by (unfold Torch.arange; rewrite length_seq, slice_last_length; auto).
  apply mapM_total. intros [i t] Hin.
  pose proof (in_combine_l _ _ _ _ Hin) as Hi.
  pose proof (in_combine_r _ _ _ _ Hin) as Ht.
  unfold Torch.arange in Hi. apply in_seq in Hi.
  rewrite slice_last_pos in Ht by exact Hk.
  rewrite forallb_forall in Htok.
  apply (at_total _ V); [lia|exact Hall|apply Htok; exact Ht].
Qed.

Lemma leading_scores_length V scores bt ls :
  step_vectors V scores = true ->
  LogitsSaverManager.leading_scores_of scores = Ok (bt, ls) ->
  length bt = length scores /\ length ls = length scores.
Proof.
  intros Hsv Hl.
  apply leading_scores_inv in Hl. destruct Hl as [m [Hm [Ha [Hlen Hls]]]].
  apply concat_ok in Hm. destruct Hm as [Em _]. subst m.
  destruct (step_vectors_concat V _ Hsv) as [Hk _].
  apply mapM_length in Hls.
  rewrite length_combine, length_seq in Hls. lia.
Qed.

Lemma leading_scores_total V scores :
  step_vectors V scores = true ->
  scores <> [] ->
  1 <= V ->
  exists bt ls, LogitsSaverManager.leading_scores_of scores = Ok (bt, ls).
Proof.
  intros Hsv Hne HV.
  unfold LogitsSaverManager.leading_scores_of.
  rewrite (step_vectors_concat_ok V _ Hsv Hne). simpl rbind.
  destruct (step_vectors_concat V _ Hsv) as [Hlen Hall].
  destruct (mapM_total _ _ Torch.argmax_row (List.concat scores)) as [bt Hbt].
  { intros row Hrow. rewrite Forall_forall in Hall.
    specialize (Hall row Hrow).
    destruct row as [|x r]; [simpl in Hall; lia|].
    eexists; reflexivity. }
  unfold Torch.argmax. rewrite Hbt. simpl rbind.
  pose proof (mapM_length _ _ _ _ _ Hbt) as Hblen.
  unfold Torch.index2, Torch.arange. rewrite softmax_length.
  rewrite broadcast_same by (rewrite length_seq; auto).
  destruct (mapM_total _ _ (Torch.at_ (Torch.softmax (List.concat scores)))
              (combine (seq 0 (length (List.concat scores))) bt)) as [ls Hls].
  { intros [i a] Hin.
    pose proof (in_combine_l _ _ _ _ Hin) as Hi. apply in_seq in Hi.
    pose proof (in_combine_r _ _ _ _ Hin) as Ha.
    destruct (mapM_In _ _ _ _ _ _ Hbt Ha) as [row [Hrow Harg]].
    apply argmax_row_range in Harg.
    rewrite Forall_forall in Hall. rewrite (Hall row Hrow) in Harg.
    apply (at_total _ V); [lia| |exact Harg].
    apply Forall_forall. exact Hall. }
  rewrite Hls. simpl. exists bt, ls. reflexivity.
Qed.

Lemma at_never_asserts m p : Torch.at_ m p <> Raise AssertionError.
Proof.
  unfold Torch.at_. destruct (nth_error m (fst p)) as [r|]; [|discriminate].
  unfold Torch.norm_index.
  destruct ((0 <=? snd p)%Z && (snd p <? Z.of_nat (length r))%Z).
  - destruct (nth_error r _); discriminate.
  - destruct ((- Z.of_nat (length r) <=? snd p)%Z && (snd p <? 0)%Z).
    + destruct (nth_error r _); discriminate.
    + discriminate.
Qed.

Lemma generated_scores_never_asserts scores token_sequence :
  LogitsSaverManager.generated_scores_of scores token_sequence
  <> Raise AssertionError.
Proof.
  unfold LogitsSaverManager.generated_scores_of.
  destruct (Torch.concat scores) as [m|e] eqn:Em.
  - simpl rbind. unfold Torch.index2.
    destruct (Torch.broadcast _ _) as [ps|e] eqn:Eb.
    + apply mapM_never. intros p. apply at_never_asserts.
    + unfold Torch.broadcast in Eb.
      destruct (_ =? _) in Eb; [discriminate|].
      destruct (Torch.arange _) as [|x [|x' xs]];
        destruct (Py.slice_last _ _) as [|y [|y' ys]];
        inversion Eb; discriminate.
  - simpl. unfold Torch.concat in Em. destruct scores; [inversion Em; discriminate|].
    destruct (Torch.same_width _); inversion Em; discriminate.
Qed.

Lemma broadcast_mismatch A B (xs : list A) (ys : list B) :
  length xs <> length ys -> 2 <= length xs -> 2 <= length ys ->
  Torch.broadcast xs ys = Raise IndexError.
Proof.
  intros Hne Hx Hy. unfold Torch.broadcast.
  destruct (Nat.eqb_spec (length xs) (length ys)); [contradiction|].
  destruct xs as [|x [|x' xs]]; simpl in Hx; try lia.
  destruct ys as [|y [|y' ys]]; simpl in Hy; try lia.
  reflexivity.
Qed.

Lemma demo_argmax_B : Torch.argmax_row [0%R; 1%R; 0%R] = Ok 1%Z.
Proof.
  unfold Torch.argmax_row, Torch.argmax_ne.
  destruct (Rlt_dec 1 (nth 0 [0%R] 0%R)) as [Hlt|_]; [simpl in Hlt; lra|].
  destruct (Rlt_dec 0 (nth 0 [1%R; 0%R] 0%R)) as [_|Hge]; [reflexivity|].
  simpl in Hge. lra.
Qed.

Lemma demo_argmax_C : Torch.argmax_row [0%R; 0%R; 1%R] = Ok 2%Z.
Proof.
  unfold Torch.argmax_row, Torch.argmax_ne.
  destruct (Rlt_dec 0 (nth 0 [1%R] 0%R)) as [_|Hge]; [|simpl in Hge; lra].
  destruct (Rlt_dec 0 (nth 1 [0%R; 1%R] 0%R)) as [_|Hge]; [reflexivity|].
  simpl in Hge. lra.
Qed.

Lemma demo_leading_scores :
  LogitsSaverManager.leading_scores_of Demo.recorded_scores
  = Ok ([1%Z; 2%Z],
        [(exp 1 / Torch.sum_exp [0; 1; 0])%R;
         (exp 1 / Torch.sum_exp [0; 0; 1])%R]).
Proof.
  unfold LogitsSaverManager.leading_scores_of, Demo.recorded_scores.
  change (Torch.concat [[[0%R; 1%R; 0%R]]; [[0%R; 0%R; 1%R]]])
    with (Ok [[0%R; 1%R; 0%R]; [0%R; 0%R; 1%R]]).
  cbn [rbind]. unfold Torch.argmax. cbn [mapM].
  rewrite demo_argmax_B, demo_argmax_C. reflexivity.
Qed.

(** ** Claims about the diagnostic reducer *)

(** The table of lines 105-119 on a record of [k] step vectors. *)
Lemma table_alignment {H : Host} (w : world) (self : loc)
        (out : generate_output) (scores : list Torch.tensor)
        (sequence : Torch.long_tensor) (V : nat) :
  fst (LogitsSaverManager.warper_scores self w) = Ok scores ->
  first_sequence out = Ok sequence ->
  step_vectors V scores = true ->
  length scores <= length sequence ->
  let k := length scores in
  let suffix := skipn (length sequence - k) sequence in
  (forall df, fst (diagnostics self out w) = Ok df ->
     length (generated_token df) = k /\
     length (generated_token_idx df) = k /\
     length (generated_score df) = k /\
     length (leading_token df) = k /\
     length (leading_token_idx df) = k /\
     length (leading_score df) = k /\
     generated_token_idx df = suffix /\
     forall i, i < k ->
       nth_error (generated_token_idx df) i = nth_error suffix i) /\
  (1 <= k -> forallb (in_vocabulary V) suffix = true ->
   exists df, fst (diagnostics self out w) = Ok df).
Proof.
  intros Hs Hseq Hsv Hle k suffix.
  rewrite diagnostics_eq, Hseq, Hs. simpl fst. simpl rbind. unfold table_of.
  split.
  - intros df Hdf.
    destruct (LogitsSaverManager.generated_scores_of scores sequence)
      as [gs|e] eqn:Hg; [|discriminate].
    simpl rbind in Hdf.
    destruct (LogitsSaverManager.leading_scores_of scores)
      as [[bt ls]|e] eqn:Hl; [|discriminate].
    simpl in Hdf. inversion Hdf; subst df; clear Hdf. simpl.
    destruct (generated_scores_length V _ _ _ Hsv Hle Hg) as [Hgs Hne].
    destruct (leading_scores_length V _ _ _ Hsv Hl) as [Hbt Hls].
    assert (Hk : length scores <> 0)
      by (destruct scores; [contradiction|discriminate]).
    rewrite Hgs. rewrite !length_map.
    rewrite (slice_last_length _ _ _ Hk Hle).
    rewrite (slice_last_pos _ _ _ Hk).
    repeat split; auto.
  - intros Hk Htok.
    assert (Hne : scores <> [])
      by (intros E; subst scores; simpl in k; subst k; lia).
    destruct (generated_scores_total V _ _ Hsv Hne Hle Htok) as [gs Hg].
    rewrite Hg. simpl rbind.
    assert (HV : 1 <= V).
    { assert (Hlen : length suffix = k)
        by (subst suffix; rewrite length_skipn; lia).
      destruct suffix as [|t ts]; [simpl in Hlen; lia|].
      simpl in Htok. apply andb_true_iff in Htok. destruct Htok as [Ht _].
      apply in_vocabulary_range in Ht. lia. }
    destruct (leading_scores_total V _ Hsv Hne HV) as [bt [ls Hl]].
    rewrite Hl. simpl. eexists; reflexivity.
Qed.

(** C5 -- Probability ordering.  For every recorded step [i], the
    probability reported by [get_leading_scores] is at least the one
    reported by [get_generated_scores]; both are entries of the softmax of
    the step's recorded scores, and the two are equal exactly when the
    generated token's probability is a maximum of that distribution. *)
Theorem probability_ordering (w : world) (self : loc)
        (token_sequence : Torch.long_tensor)
        (scores : list Torch.tensor) (m : Torch.tensor)
        (gs : list R) (bt : list Z) (ls : list R) :
  fst (LogitsSaverManager.warper_scores self w) = Ok scores ->
  Torch.concat scores = Ok m ->
  fst (LogitsSaverManager.get_generated_scores self token_sequence w) = Ok gs ->
  fst (LogitsSaverManager.get_leading_scores self w) = Ok (bt, ls) ->
  forall i g l dist,
    nth_error gs i = Some g ->
    nth_error ls i = Some l ->
    nth_error (Torch.softmax m) i = Some dist ->
    In g dist /\ In l dist /\ (g <= l)%R /\
    (g = l <-> forall p, In p dist -> (p <= g)%R).
Proof.
  intros Hs Hm Hg Hl i g l dist Eg El Ed.
  rewrite get_generated_scores_eq, Hs in Hg. simpl in Hg.
  rewrite get_leading_scores_eq, Hs in Hl. simpl in Hl.
  exact (ordering_core scores token_sequence gs bt ls m i g l dist
           Hg Hl Hm Eg El Ed).
Qed.

Lemma probability_ordering_witness :
  (exp 1 / Torch.sum_exp [0; 1; 0] <= exp 1 / Torch.sum_exp [0; 1; 0])%R.
Proof.
  refine (proj1 (proj2 (proj2
    (probability_ordering Demo.recorded 0 [0%Z; 1%Z; 2%Z]
       Demo.recorded_scores [[0%R; 1%R; 0%R]; [0%R; 0%R; 1%R]]
       [(exp 1 / Torch.sum_exp [0; 1; 0])%R;
        (exp 1 / Torch.sum_exp [0; 0; 1])%R]
       [1%Z; 2%Z]
       [(exp 1 / Torch.sum_exp [0; 1; 0])%R;
        (exp 1 / Torch.sum_exp [0; 0; 1])%R]
       eq_refl eq_refl eq_refl _ 0 _ _
       (Torch.softmax_row [0%R; 1%R; 0%R]) eq_refl eq_refl eq_refl)))).
  rewrite get_leading_scores_eq. exact demo_leading_scores.
Defined.

(** C6 -- Zero-step edge case.  With an empty record the slice
    [token_sequence[-0:]] is the whole sequence and [torch.concat] of the
    empty list raises: [get_generated_scores] fails with a [RuntimeError]
    instead of returning an empty list, and so does [generate_enforced] for
    a host run that resolves the chain and performs no decoding step. *)
Theorem zero_steps_raise :
  (forall token_sequence : Torch.long_tensor,
     Py.slice_last 0 token_sequence = token_sequence) /\
  (forall token_sequence,
     LogitsSaverManager.generated_scores_of [] token_sequence
     = Raise RuntimeError) /\
  (forall self token_sequence w,
     fst (LogitsSaverManager.warper_scores self w) = Ok [] ->
     fst (LogitsSaverManager.get_generated_scores self token_sequence w)
     = Raise RuntimeError) /\
  fst (generate_enforced (H := Demo.scripted Demo.no_step)
         Demo.kw_single Demo.pristine) = Raise RuntimeError.
Proof.
  split; [reflexivity|]. split; [reflexivity|]. split; [|reflexivity].
  intros self token_sequence w Hs.
  rewrite get_generated_scores_eq, Hs. reflexivity.
Qed.

Lemma zero_steps_raise_witness :
  fst (LogitsSaverManager.get_generated_scores 0 [0%Z]
         (mkWorld [] [[]] [mkManager (Some 0) HOriginal] HOriginal))
  = Raise RuntimeError.
Proof.
  exact (proj1 (proj2 (proj2 zero_steps_raise)) 0 [0%Z]
           (mkWorld [] [[]] [mkManager (Some 0) HOriginal] HOriginal)
           eq_refl).
Defined.

(** C9, as stated, fails: two recorded steps against a sequence of one
    token are reduced without any error, the single token being broadcast
    over both steps. *)
Lemma mismatch_passes_silently :
  ~ asserted_mismatch Demo.flat_scores [1%Z].
Proof.
  unfold asserted_mismatch. intros Hf.
  assert (Hlt : length [1%Z] < length Demo.flat_scores)
    by (simpl; lia).
  specialize (Hf Hlt).
  assert (Hok : exists gs,
             LogitsSaverManager.generated_scores_of Demo.flat_scores [1%Z]
             = Ok gs)
    by (eexists; reflexivity).
  destruct Hok as [gs Hok]. rewrite Hok in Hf. discriminate.
Qed.

(** C9, amended -- A record longer than the generated sequence is not
    guarded by an assertion: [get_generated_scores] never raises an
    [AssertionError].  For recorded step vectors and a sequence of at
    least two tokens the mismatch surfaces as the [IndexError] of the
    tensor indexing, whose index tensors cannot be broadcast. *)
Theorem mismatch_not_asserted (V : nat) (scores : list Torch.tensor)
        (token_sequence : Torch.long_tensor) :
  length token_sequence < length scores ->
  step_vectors V scores = true ->
  LogitsSaverManager.generated_scores_of scores token_sequence
  <> Raise AssertionError /\
  (2 <= length token_sequence ->
   LogitsSaverManager.generated_scores_of scores token_sequence
   = Raise IndexError).
Proof.
  intros Hlt Hsv. split; [apply generated_scores_never_asserts|].
  intros Hn.
  assert (Hne : scores <> []) by (intros E; subst; simpl in Hlt; lia).
  unfold LogitsSaverManager.generated_scores_of.
  rewrite (step_vectors_concat_ok V _ Hsv Hne). simpl rbind.
  destruct (step_vectors_concat V _ Hsv) as [Hlen _].
  unfold Torch.index2. rewrite softmax_length, Hlen.
  rewrite slice_last_pos by lia.
  replace (length token_sequence - length scores) with 0 by lia.
  simpl skipn.
  rewrite broadcast_mismatch; [reflexivity| | |exact Hn];
    unfold Torch.arange; rewrite length_seq; lia.
Qed.

Lemma mismatch_not_asserted_witness :
  LogitsSaverManager.generated_scores_of
    [[[0%R; 0%R]]; [[0%R; 0%R]]; [[0%R; 0%R]]] [0%Z; 1%Z]
  = Raise IndexError.
Proof.
  refine (proj2 (mismatch_not_asserted 2
                   [[[0%R; 0%R]]; [[0%R; 0%R]]; [[0%R; 0%R]]] [0%Z; 1%Z]
                   _ eq_refl) _).
  - simpl; lia.
  - simpl; lia.
Defined.

(** ** The object store *)

Lemma update_length A i (f : A -> A) l : length (update i f l) = length l.
Proof.
  revert i; induction l as [|a l IH]; intros [|i]; simpl; auto.
Qed.

Lemma update_nth_same A i (f : A -> A) l d :
  i < length l -> nth i (update i f l) d = f (nth i l d).
Proof.
  revert i; induction l as [|a l IH]; intros [|i] Hi; simpl in *;
    try lia; auto.
  apply IH. lia.
Qed.

Lemma update_nth_other A i j (f : A -> A) l d :
  i <> j -> nth j (update i f l) d = nth j l d.
Proof.
  revert i j; induction l as [|a l IH]; intros [|i] [|j] Hij; simpl;
    try congruence; auto.
Qed.

Lemma update_map_stable A B (g : A -> B) i (f : A -> A) l :
  (forall a, g (f a) = g a) -> map g (update i f l) = map g l.
Proof.
  intros Hg. revert i; induction l as [|a l IH]; intros [|i]; simpl;
    try rewrite Hg; try rewrite IH; auto.
Qed.

(** ** Claims about the score recorder *)

(** C1 -- Transparency of the score recorder.  [__call__] returns the
    very tensor it was given; no existing tensor is written; the one
    effect is a new tensor object with the same entries, appended to
    [self.scores].  The copy is independent: a later write into the
    original leaves it unchanged.  The other recorders, the managers and
    the model's hook are untouched. *)
Theorem recorder_transparent (w : world) (self : loc)
        (ids : list (list Z)) (scores : loc) :
  scores < length (heap w) ->
  self < length (savers w) ->
  let r := LogitsSaverWarper.call self ids scores w in
  let w' := snd r in
  let copy := length (heap w) in
  fst r = Ok scores /\
  heap w' = heap w ++ [nth scores (heap w) []] /\
  (forall t, t < length (heap w) -> nth t (heap w') [] = nth t (heap w) []) /\
  nth copy (heap w') [] = nth scores (heap w) [] /\
  copy <> scores /\
  (forall t', nth copy (update scores (fun _ => t') (heap w')) []
              = nth scores (heap w) []) /\
  nth self (savers w') [] = nth self (savers w) [] ++ [copy] /\
  (forall s, s <> self -> nth s (savers w') [] = nth s (savers w) []) /\
  length (savers w') = length (savers w) /\
  managers w' = managers w /\
  model_hook w' = model_hook w.
Proof.
  intros Hs Hself r w' copy. subst r w' copy. simpl.
  split; [reflexivity|]. split; [reflexivity|].
  split; [intros t Ht; apply app_nth1; exact Ht|].
  assert (Hcopy : nth (length (heap w)) (heap w ++ [nth scores (heap w) []]) []
                  = nth scores (heap w) []).
  { rewrite app_nth2 by lia. rewrite Nat.sub_diag. reflexivity. }
  split; [exact Hcopy|].
  split; [lia|].
  split; [intros t'; rewrite update_nth_other by lia; exact Hcopy|].
  split; [apply update_nth_same; exact Hself|].
  split; [intros s Hne; apply update_nth_other; congruence|].
  split; [apply update_length|].
  split; reflexivity.
Qed.

Lemma recorder_transparent_witness :
  fst (LogitsSaverWarper.call 0 [[0%Z]] 0
         (mkWorld [[[0%R; 1%R; 0%R]]] [[]] [] HOriginal)) = Ok 0 /\
  savers (snd (LogitsSaverWarper.call 0 [[0%Z]] 0
                 (mkWorld [[[0%R; 1%R; 0%R]]] [[]] [] HOriginal))) = [[1]].
Proof.
  pose proof (recorder_transparent
                (mkWorld [[[0%R; 1%R; 0%R]]] [[]] [] HOriginal) 0 [[0%Z]] 0
                (le_n 1) (le_n 1)) as [Hret _].
  split; [exact Hret|reflexivity].
Defined.

(** ** Claims about the mode selector *)

Lemma advanced_mode_unfold kw :
  advanced_mode kw =
  rbind (support_diagnostics kw)
        (fun sd => Ok (diagnostics_requested kw && sd)).
Proof.
  unfold advanced_mode, should_run_in_advanced_mode, diagnostics_requested.
  destruct (support_diagnostics kw) as [sd|e]; [|reflexivity].
  simpl rbind. f_equal. unfold Py.and_.
  destruct (Py.truthy (get (return_dict_in_generate kw) (Py.VBool false)))
    eqn:Erd;
    [destruct (Py.truthy (get (output_scores kw) Py.VNone)) eqn:Eos|];
    simpl; rewrite ?Erd, ?Eos; simpl; rewrite ?Erd, ?Eos; reflexivity.
Qed.

Lemma generate_enforced_unfold {H : Host} kw w :
  generate_enforced kw w =
  match advanced_mode kw with
  | Ok true => generate_advanced kw w
  | Ok false => generate_plain kw w
  | Raise e => (Raise e, w)
  end.
Proof.
  unfold generate_enforced, advanced_mode, bind, lift.
  destruct (should_run_in_advanced_mode kw) as [mode|e]; [|reflexivity].
  simpl. destruct (Py.truthy mode); reflexivity.
Qed.

(** C3, as stated, fails twice.  An [input_ids] tensor with no row at all
    is not "more than one" input, so the call is instrumented although the
    batch size is not 1.  And a call without [input_ids] takes neither
    path: line 85 raises a [KeyError]. *)
Lemma empty_batch_is_instrumented :
  ~ mode_selection_as_stated Demo.kw_empty_batch /\
  ~ mode_selection_as_stated Demo.kw_no_input.
Proof.
  split.
  - intros [[Hf _] _]. destruct (Hf eq_refl) as [[t [Et Hlen]] _].
    inversion Et; subst t. discriminate Hlen.
  - intros [_ Hf].
    assert (Hq : ~ qualifies_as_stated Demo.kw_no_input)
      by (intros [[t [Et _]] _]; discriminate Et).
    specialize (Hf Hq). discriminate Hf.
Qed.

(** C3, amended -- Mode selection.  [generate_enforced] takes the
    instrumented path if and only if [input_ids] has at most one row,
    [num_beams] (defaulting to 1) is at most 1, and
    [return_dict_in_generate] and [output_scores] are both truthy; in every
    other case in which the selector can be computed ([input_ids] is
    supplied and [num_beams] is not [None]) it takes the plain path. *)
Theorem mode_selection {H : Host} (kw : kwargs) :
  (advanced_mode kw = Ok true <-> qualifies kw) /\
  (advanced_mode kw = Ok true ->
   forall w, generate_enforced kw w = generate_advanced kw w) /\
  (advanced_mode kw = Ok false ->
   forall w, generate_enforced kw w = generate_plain kw w) /\
  (input_ids kw <> None -> get (num_beams kw) (Py.VInt 1) <> Py.VNone ->
   ~ qualifies kw -> advanced_mode kw = Ok false).
Proof.
  assert (Hiff : advanced_mode kw = Ok true <-> qualifies kw).
  { rewrite advanced_mode_unfold.
    unfold qualifies, support_diagnostics, is_multi_inputs.
    destruct (input_ids kw) as [t|].
    - destruct (is_multi_beams kw) as [b|e]; simpl.
      + split.
        * intros E. injection E as E'.
          apply andb_true_iff in E'. destruct E' as [Hd Hn].
          apply negb_true_iff, orb_false_iff in Hn. destruct Hn as [Ht Hb].
          apply Nat.ltb_ge in Ht. subst b.
          split; [exists t; auto|]. split; [reflexivity|exact Hd].
        * intros [[t' [Et Hlen]] [Eb Hd]]. inversion Et; subst t'.
          inversion Eb; subst b. rewrite Hd.
          replace (1 <? length t) with false
            by (symmetry; apply Nat.ltb_ge; exact Hlen).
          reflexivity.
      + split; [discriminate|]. intros [_ [Eb _]]. discriminate.
    - simpl. split; [discriminate|].
      intros [[t [Et _]] _]. discriminate. }
  split; [exact Hiff|].
  split; [intros E w; rewrite generate_enforced_unfold, E; reflexivity|].
  split; [intros E w; rewrite generate_enforced_unfold, E; reflexivity|].
  intros Hin Hnb Hnq.
  destruct (advanced_mode kw) as [[|]|e] eqn:E.
  - exfalso. apply Hnq, Hiff. reflexivity.
  - reflexivity.
  - exfalso. rewrite advanced_mode_unfold in E.
    unfold support_diagnostics, is_multi_inputs, is_multi_beams in E.
    destruct (input_ids kw); [|congruence].
    destruct (get (num_beams kw) (Py.VInt 1)); simpl in E;
      congruence.
Qed.

Lemma mode_selection_witness :
  generate_enforced (H := Demo.scripted Demo.two_steps)
    Demo.kw_single Demo.pristine
  = generate_advanced (H := Demo.scripted Demo.two_steps)
      Demo.kw_single Demo.pristine /\
  generate_enforced (H := Demo.scripted Demo.two_steps)
    Demo.kw_pair Demo.pristine
  = generate_plain (H := Demo.scripted Demo.two_steps)
      Demo.kw_pair Demo.pristine /\
  advanced_mode Demo.kw_pair = Ok false.
Proof.
  destruct (mode_selection (H := Demo.scripted Demo.two_steps) Demo.kw_single)
    as [_ [Hadv _]].
  destruct (mode_selection (H := Demo.scripted Demo.two_steps) Demo.kw_pair)
    as [_ [_ [Hplain Hother]]].
  split; [exact (Hadv eq_refl Demo.pristine)|].
  split; [exact (Hplain eq_refl Demo.pristine)|].
  apply Hother.
  - discriminate.
  - discriminate.
  - intros [[t [Et Hlen]] _]. inversion Et; subst t. simpl in Hlen. lia.
Defined.

(** ** Claims about the session manager *)

Lemma call_hook_over_original {H : Host} depth self filter_func cfg w :
  old_warper (nth self (managers w) no_manager) = HOriginal ->
  LogitsSaverManager.call_hook (S (S depth)) (HReplaced self filter_func) cfg w
  = (Ok (PSaver (length (savers w))
           :: match filter_func with
              | Some f => PPrefixConstrained f 1 :: original_get_logits_warper cfg
              | None => original_get_logits_warper cfg
              end),
     set_managers
       (update self (fun m => mkManager (Some (length (savers w))) (old_warper m))
               (managers w))
       (set_savers (savers w ++ [[]]) w)).
Proof.
  intros Hold. cbn [LogitsSaverManager.call_hook].
  unfold bind, read_manager. rewrite Hold. cbn.
  destruct filter_func; reflexivity.
Qed.

(** C8 -- Chain installation.  Once [replace_logits_warper] has been
    called on a model that had its own resolution method, the attribute
    holds the replacement function, and every invocation of it creates a
    new recorder with an empty [scores] list, puts it at position 0 of the
    chain the original method returns, puts the constraint processor (when
    a filter function was supplied) at position 1, and stores the recorder
    in [self.warper].  The saved method is left in place, so the next
    invocation does the same. *)
Theorem chain_installation {H : Host} (self : loc)
        (filter_func : option filter) :
  (forall w0, self < length (managers w0) -> model_hook w0 = HOriginal ->
     let w1 := snd (LogitsSaverManager.replace_logits_warper self filter_func w0) in
     model_hook w1 = HReplaced self filter_func /\
     self < length (managers w1) /\
     old_warper (nth self (managers w1) no_manager) = HOriginal) /\
  (forall w cfg, self < length (managers w) ->
     old_warper (nth self (managers w) no_manager) = HOriginal ->
     let r := LogitsSaverManager.new_logits_warper self filter_func cfg w in
     let w' := snd r in
     let s := length (savers w) in
     exists chain,
       fst r = Ok chain /\
       nth_error chain 0 = Some (PSaver s) /\
       match filter_func with
       | Some f =>
           nth_error chain 1 = Some (PPrefixConstrained f 1) /\
           skipn 2 chain = original_get_logits_warper cfg
       | None => skipn 1 chain = original_get_logits_warper cfg
       end /\
       savers w' = savers w ++ [[]] /\
       nth s (savers w') [0] = [] /\
       warper (nth self (managers w') no_manager) = Some s /\
       self < length (managers w') /\
       old_warper (nth self (managers w') no_manager) = HOriginal /\
       heap w' = heap w /\
       model_hook w' = model_hook w).
Proof.
  split.
  - intros w0 Hself Hhook w1. subst w1. simpl.
    rewrite update_length. split; [reflexivity|]. split; [exact Hself|].
    rewrite update_nth_same by exact Hself. simpl. exact Hhook.
  - intros w cfg Hself Hold r w' s. subst r w' s.
    unfold LogitsSaverManager.new_logits_warper.
    change recursion_limit with (S (S 998)).
    rewrite (call_hook_over_original 998 self filter_func cfg w Hold).
    simpl fst. simpl snd. eexists. split; [reflexivity|].
    split; [reflexivity|].
    split; [destruct filter_func; split; reflexivity|].
    simpl. split; [reflexivity|].
    split; [rewrite app_nth2 by lia; rewrite Nat.sub_diag; reflexivity|].
    rewrite update_length, update_nth_same by exact Hself. simpl.
    repeat split; auto.
Qed.

Lemma chain_installation_witness :
  exists chain,
    fst (LogitsSaverManager.new_logits_warper
           (H := Demo.scripted Demo.two_steps) 0
           (Some (fun _ _ => [1%Z; 2%Z])) tt
           (snd (install (H := Demo.scripted Demo.two_steps) Demo.pristine)))
    = Ok chain /\
    nth_error chain 0 = Some (PSaver 0) /\
    skipn 2 chain = [PHost 0].
Proof.
  destruct (chain_installation (H := Demo.scripted Demo.two_steps) 0
              (Some (fun _ _ => [1%Z; 2%Z]))) as [_ Hcall].
  destruct (Hcall (snd (install (H := Demo.scripted Demo.two_steps)
                          Demo.pristine)) tt (le_n 1) eq_refl)
    as [chain [Hr [H0 [[_ Hrest] _]]]].
  exists chain. split; [exact Hr|]. split; [exact H0|exact Hrest].
Defined.

Lemma stable_refl w : stable w w.
Proof. split; reflexivity. Qed.

Lemma stable_trans w1 w2 w3 : stable w1 w2 -> stable w2 w3 -> stable w1 w3.
Proof. intros [A B] [C D]. split; congruence. Qed.

Lemma call_hook_stable {H : Host} depth h cfg w :
  stable w (snd (LogitsSaverManager.call_hook depth h cfg w)).
Proof.
  revert h w; induction depth as [|depth IH]; intros h w.
  - apply stable_refl.
  - destruct h as [| |self filter_func]; try apply stable_refl.
    cbn [LogitsSaverManager.call_hook]. unfold bind, read_manager.
    specialize (IH (old_warper (nth self (managers w) no_manager)) w).
    destruct (LogitsSaverManager.call_hook depth _ cfg w) as [[ws|e] w1].
    + simpl in IH. eapply stable_trans; [exact IH|]. cbn.
      split; [|reflexivity]. simpl.
      apply update_map_stable. reflexivity.
    + exact IH.
Qed.

Lemma call_processor_stable {H : Host} p ids s w :
  stable w (snd (call_processor p ids s w)).
Proof.
  destruct p; simpl; unfold host_processor; try destruct (host_in_place _);
    split; reflexivity.
Qed.

Lemma call_chain_stable {H : Host} chain ids s w :
  stable w (snd (call_chain chain ids s w)).
Proof.
  revert s w; induction chain as [|p chain IH]; intros s w.
  - apply stable_refl.
  - cbn [call_chain]. unfold bind.
    pose proof (call_processor_stable p ids s w) as Hp.
    destruct (call_processor p ids s w) as [[s'|e] w1]; [|exact Hp].
    eapply stable_trans; [exact Hp|apply IH].
Qed.

Lemma run_events_stable {H : Host} evs chain w :
  stable w (snd (run_events evs chain w)).
Proof.
  revert chain w; induction evs as [|ev evs IH]; intros chain w.
  - apply stable_refl.
  - destruct ev as [cfg|ids t]; cbn [run_events]; unfold bind.
    + unfold read_model_hook.
      pose proof (call_hook_stable recursion_limit (model_hook w) cfg w) as Hh.
      destruct (LogitsSaverManager.call_hook recursion_limit _ cfg w)
        as [[chain'|e] w1]; [|exact Hh].
      eapply stable_trans; [exact Hh|apply IH].
    + unfold new_tensor.
      set (w0 := set_heap (heap w ++ [t]) w).
      pose proof (call_chain_stable chain ids (length (heap w)) w0) as Hc.
      destruct (call_chain chain ids (length (heap w)) w0) as [[s|e] w1].
      * eapply stable_trans; [exact Hc|apply IH].
      * exact Hc.
Qed.

Lemma model_generate_stable {H : Host} kw w :
  stable w (snd (model_generate kw w)).
Proof.
  unfold model_generate, bind, read_model_hook, lift.
  pose proof (run_events_stable (events (host_generate (model_hook w) kw)) [] w)
    as Hr.
  destruct (run_events _ [] w) as [[u|e] w1]; exact Hr.
Qed.

Lemma old_warper_nth self l :
  old_warper (nth self l no_manager) = nth self (map old_warper l) HNone.
Proof. symmetry. apply (map_nth old_warper l no_manager self). Qed.

Lemma stable_old_warper w w' self :
  stable w w' ->
  old_warper (nth self (managers w') no_manager)
  = old_warper (nth self (managers w) no_manager).
Proof.
  intros [Hm _]. rewrite !old_warper_nth, Hm. reflexivity.
Qed.

Lemma unreplace_hook self w :
  snd (LogitsSaverManager.unreplace_logits_warper self w)
  = set_model_hook (old_warper (nth self (managers w) no_manager)) w.
Proof. reflexivity. Qed.

Lemma unreplace_idempotent self w :
  snd (LogitsSaverManager.unreplace_logits_warper self
         (snd (LogitsSaverManager.unreplace_logits_warper self w)))
  = snd (LogitsSaverManager.unreplace_logits_warper self w).
Proof. reflexivity. Qed.

Lemma release_times_hook n self w :
  model_hook (release_times (S n) self w)
  = old_warper (nth self (managers w) no_manager).
Proof.
  revert w; induction n as [|n IH]; intros w.
  - reflexivity.
  - change (release_times (S (S n)) self w)
      with (release_times (S n) self
              (snd (LogitsSaverManager.unreplace_logits_warper self w))).
    rewrite IH. reflexivity.
Qed.

(** C10, as stated, fails in its conclusion: the release is idempotent,
    a second call re-assigns the same saved value; after a replacement,
    two releases in a row leave the model with its own method. *)
Lemma release_is_idempotent :
  ~ release_not_idempotent /\
  model_hook
    (release_times 2 0
       (snd (LogitsSaverManager.replace_logits_warper 0 None
               (mkWorld [] [] [no_manager] HOriginal))))
  = HOriginal.
Proof.
  split; [|reflexivity].
  intros [self [w Hne]]. apply Hne. apply unreplace_idempotent.
Qed.

(** C10, amended -- Release without acquisition.  On a manager that was
    just constructed, [unreplace_logits_warper] assigns [None] to the
    model's [_get_logits_warper], whatever it held: the hook is destroyed,
    not restored.  The release is idempotent; it is safe after a matching
    [replace_logits_warper], where one call or several in a row all leave
    the model with the method it had before the replacement. *)
Theorem release_without_replace (w : world) :
  (let self := length (managers w) in
   let w1 := snd (LogitsSaverManager.init w) in
   fst (LogitsSaverManager.init w) = Ok self /\
   model_hook (snd (LogitsSaverManager.unreplace_logits_warper self w1))
   = HNone) /\
  (forall self,
     snd (LogitsSaverManager.unreplace_logits_warper self
            (snd (LogitsSaverManager.unreplace_logits_warper self w)))
     = snd (LogitsSaverManager.unreplace_logits_warper self w)) /\
  (forall self filter_func n,
     self < length (managers w) ->
     model_hook
       (release_times (S n) self
          (snd (LogitsSaverManager.replace_logits_warper self filter_func w)))
     = model_hook w).
Proof.
  split; [|split].
  - simpl. split; [reflexivity|].
    rewrite app_nth2 by lia. rewrite Nat.sub_diag. reflexivity.
  - intros self. apply unreplace_idempotent.
  - intros self filter_func n Hself. rewrite release_times_hook. simpl.
    rewrite update_nth_same by exact Hself. reflexivity.
Qed.

Lemma release_without_replace_witness :
  model_hook
    (release_times 2 0
       (snd (LogitsSaverManager.replace_logits_warper 0 None
               (mkWorld [] [] [no_manager] HOriginal))))
  = HOriginal.
Proof.
  exact (proj2 (proj2 (release_without_replace
                         (mkWorld [] [] [no_manager] HOriginal)))
               0 None 1 (le_n 1)).
Defined.

(** ** Claims about [generate_enforced] *)

Lemma install_eq {H : Host} w :
  install w =
  (Ok (length (managers w)),
   set_model_hook
     (HReplaced (length (managers w)) (Some transformers_filter_allowed_tokens))
     (set_managers
        (update (length (managers w))
                (fun m => mkManager (warper m) (model_hook w))
                (managers w ++ [mkManager None HNone]))
        w)).
Proof. reflexivity. Qed.

Lemma install_old_warper {H : Host} w :
  old_warper (nth (length (managers w)) (managers (snd (install w))) no_manager)
  = model_hook w.
Proof.
  rewrite install_eq. simpl.
  rewrite update_nth_same by (rewrite length_app; simpl; lia).
  reflexivity.
Qed.

Lemma generate_advanced_unfold {H : Host} kw w :
  generate_advanced kw w =
  match try_finally (model_generate kw)
          (LogitsSaverManager.unreplace_logits_warper (length (managers w)))
          (snd (install w)) with
  | (Ok out, w4) =>
      match diagnostics (length (managers w)) out w4 with
      | (Ok df, w5) => (Ok (mkEnforced out (Some df)), w5)
      | (Raise e, w5) => (Raise e, w5)
      end
  | (Raise e, w4) => (Raise e, w4)
  end.
Proof. reflexivity. Qed.

Lemma guarded_generate {H : Host} kw w :
  let self := length (managers w) in
  let guarded :=
    try_finally (model_generate kw)
      (LogitsSaverManager.unreplace_logits_warper self) (snd (install w)) in
  fst guarded = fst (model_generate kw (snd (install w))) /\
  model_hook (snd guarded) = model_hook w.
Proof.
  intros self guarded. subst guarded. unfold try_finally.
  pose proof (model_generate_stable kw (snd (install w))) as Hst.
  destruct (model_generate kw (snd (install w))) as [r w3].
  simpl in Hst.
  change (LogitsSaverManager.unreplace_logits_warper self w3)
    with (Ok tt, set_model_hook (old_warper (nth self (managers w3) no_manager)) w3).
  simpl. split; [reflexivity|].
  rewrite (stable_old_warper _ _ self Hst). apply install_old_warper.
Qed.

(** C2 -- Guaranteed release.  In instrumented mode the hook is replaced
    for the duration of the host's [generate] and the [finally] block puts
    the model's original [_get_logits_warper] back on both exits; the
    outcome of [generate] passes through the block unchanged, so an
    exception of the host reaches the caller of [generate_enforced] as it
    was raised. *)
Theorem guaranteed_release {H : Host} (kw : kwargs) (w : world) :
  advanced_mode kw = Ok true ->
  let self := length (managers w) in
  let installed := snd (install w) in
  let guarded :=
    try_finally (model_generate kw)
      (LogitsSaverManager.unreplace_logits_warper self) installed in
  model_hook installed
  = HReplaced self (Some transformers_filter_allowed_tokens) /\
  fst guarded = fst (model_generate kw installed) /\
  model_hook (snd guarded) = model_hook w /\
  model_hook (snd (generate_enforced kw w)) = model_hook w /\
  (forall e, fst (model_generate kw installed) = Raise e ->
             fst (generate_enforced kw w) = Raise e).
Proof.
  intros Hmode self installed guarded.
  destruct (guarded_generate kw w) as [Hfst Hhook].
  fold self in Hfst, Hhook. fold installed in Hfst, Hhook.
  fold guarded in Hfst, Hhook.
  split; [reflexivity|]. split; [exact Hfst|]. split; [exact Hhook|].
  rewrite generate_enforced_unfold, Hmode, generate_advanced_unfold.
  fold self. fold installed. fold guarded.
  destruct guarded as [[out|e] w4]; simpl in Hfst, Hhook.
  - rewrite diagnostics_eq. split.
    + destruct (rbind _ _); exact Hhook.
    + intros e He. rewrite He in Hfst. discriminate.
  - split; [exact Hhook|].
    intros e' He. rewrite He in Hfst. simpl. inversion Hfst; reflexivity.
Qed.

Lemma guaranteed_release_witness :
  fst (generate_enforced (H := Demo.scripted Demo.failing)
         Demo.kw_single Demo.pristine) = Raise (HostError 7) /\
  model_hook (snd (generate_enforced (H := Demo.scripted Demo.failing)
                     Demo.kw_single Demo.pristine)) = HOriginal.
Proof.
  destruct (guaranteed_release (H := Demo.scripted Demo.failing)
              Demo.kw_single Demo.pristine eq_refl)
    as [_ [_ [_ [Hhook Hexn]]]].
  split; [exact (Hexn (HostError 7) eq_refl)|exact Hhook].
Defined.

(** The plain branch is the host's [generate], called with the filter as
    [prefix_allowed_tokens_fn]. *)
Lemma plain_call {H : Host} (kw : kwargs) (w : world) :
  support_diagnostics kw = Ok false ->
  prefix_allowed_tokens_fn kw = None ->
  let kw' :=
    mkKwargs (input_ids kw) (num_beams kw) (return_dict_in_generate kw)
             (output_scores kw) (Some transformers_filter_allowed_tokens)
             (others kw) in
  let host := model_generate kw' w in
  generate_enforced kw w
  = (rbind (fst host) (fun out => Ok (mkEnforced out None)), snd host) /\
  (forall e, fst (generate_enforced kw w) = Raise e <-> fst host = Raise e) /\
  (forall r, fst (generate_enforced kw w) = Ok r ->
             enforced_scores r = None /\ fst host = Ok (output r)) /\
  model_hook (snd (generate_enforced kw w)) = model_hook w /\
  length (managers (snd (generate_enforced kw w))) = length (managers w).
Proof.
  intros Hsd Hpre kw' host.
  assert (Hmode : advanced_mode kw = Ok false).
  { rewrite advanced_mode_unfold, Hsd. simpl. rewrite andb_false_r.
    reflexivity. }
  assert (Heq : generate_enforced kw w
                = (rbind (fst host) (fun out => Ok (mkEnforced out None)),
                   snd host)).
  { rewrite generate_enforced_unfold, Hmode.
    unfold generate_plain, bind, lift, with_prefix_allowed_tokens_fn.
    rewrite Hpre. fold kw'. fold host.
    destruct host as [[out|e] w1]; reflexivity. }
  pose proof (model_generate_stable kw' w) as [Hman Hhook].
  fold host in Hman, Hhook.
  rewrite Heq. simpl fst. simpl snd.
  split; [reflexivity|].
  split.
  { intros e. destruct (fst host) as [out|e0]; simpl.
    - split; discriminate.
    - split; intros E; inversion E; reflexivity. }
  split.
  { intros r. destruct (fst host) as [out|e0]; simpl; [|discriminate].
    intros E; inversion E; subst r. split; reflexivity. }
  split; [exact Hhook|].
  rewrite <- (length_map old_warper), Hman, length_map. reflexivity.
Qed.

(** A disqualifying shape on which the selector can be evaluated. *)
Lemma shape_disqualifies_support kw :
  shape_disqualifies kw ->
  input_ids kw <> None ->
  num_beams kw <> Some Py.VNone ->
  support_diagnostics kw = Ok false.
Proof.
  intros Hshape Hin Hnb.
  unfold support_diagnostics, is_multi_inputs, is_multi_beams.
  destruct (input_ids kw) as [t|] eqn:Et; [|congruence].
  destruct Hshape as [[t' [Et' Hlen]]|[z [Ez Hz]]].
  - rewrite Et in Et'. injection Et' as Et'. subst t'.
    replace (1 <? length t) with true
      by (symmetry; apply Nat.ltb_lt; exact Hlen).
    destruct (num_beams kw) as [[|b|z]|]; simpl; try reflexivity.
    congruence.
  - rewrite Ez. simpl.
    replace (1 <? z)%Z with true by (symmetry; apply Z.ltb_lt; exact Hz).
    rewrite orb_true_r. reflexivity.
Qed.

(** C7, as stated, fails in four ways, each before the host loop is
    called and with a host whose [generate] raises nothing.  Two prompts
    and a [prefix_allowed_tokens_fn] of the caller's own: line 122 gives
    that keyword twice, a [TypeError].  Two prompts and [num_beams=None]:
    line 86 raises a [TypeError].  Two beams and no [input_ids]: line 85
    raises a [KeyError].  Two prompts and a tokenizer whose [encode("0")]
    is empty: line 78 raises an [IndexError]. *)
Lemma fallback_errors_before_host :
  ~ fallback_as_stated Demo2.tok Demo2.host_of
      Demo.kw_pair_prefix Demo.pristine /\
  ~ fallback_as_stated Demo2.tok Demo2.host_of
      Demo2.kw_pair_none_beams Demo.pristine /\
  ~ fallback_as_stated Demo2.tok Demo2.host_of
      Demo2.kw_beams_no_input Demo.pristine /\
  ~ fallback_as_stated Demo2.tok_silent Demo2.host_of
      Demo.kw_pair Demo.pristine.
Proof.
  assert (Hpair : forall nb rd os pre,
             shape_disqualifies
               (mkKwargs (Some [[0%Z]; [0%Z]]) nb rd os pre [])).
  { intros nb rd os pre. left. exists [[0%Z]; [0%Z]].
    split; [reflexivity|simpl; lia]. }
  assert (Hbeams : shape_disqualifies Demo2.kw_beams_no_input).
  { right. exists 2%Z. split; [reflexivity|lia]. }
  split; [|split; [|split]]; intros Hf.
  - destruct (Hf (Hpair _ _ _ _) TypeError eq_refl) as [rt [kw' Hkw']].
    discriminate Hkw'.
  - destruct (Hf (Hpair _ _ _ _) TypeError eq_refl) as [rt [kw' Hkw']].
    discriminate Hkw'.
  - destruct (Hf Hbeams KeyError eq_refl) as [rt [kw' Hkw']].
    discriminate Hkw'.
  - destruct (Hf (Hpair _ _ _ _) IndexError eq_refl) as [rt [kw' Hkw']].
    discriminate Hkw'.
Qed.

(** C7, amended -- Fallback correctness.  Take a call whose shape rules
    out diagnostics (more than one input sequence or more than one beam),
    whether or not diagnostics were requested.  When the token list of
    line 78 is built, [input_ids] is supplied, [num_beams] is not [None]
    and the caller does not itself pass [prefix_allowed_tokens_fn]:
    [generate_enforced] is the host's [generate] called once with the
    caller's keyword arguments and the constraint filter as
    [prefix_allowed_tokens_fn]; it raises exactly when the host does, with
    the same exception; its result carries no [enforced_scores]; no manager
    is created and the model's hook is the one it was.  In each of the
    other cases the call raises before the host loop is called and leaves
    the state as it was: an [IndexError] when [encode("0")] is empty, a
    [KeyError] without [input_ids], a [TypeError] with [num_beams=None],
    a [TypeError] when the caller passes [prefix_allowed_tokens_fn]. *)
Theorem fallback_correct (tok : tokenizer)
        (host_of : list (Z * string) -> Host) (kw : kwargs) (w : world) :
  shape_disqualifies kw ->
  (forall regular_tokens,
     _build_regular_tokens_list tok = Ok regular_tokens ->
     input_ids kw <> None ->
     num_beams kw <> Some Py.VNone ->
     prefix_allowed_tokens_fn kw = None ->
     let kw' :=
       mkKwargs (input_ids kw) (num_beams kw) (return_dict_in_generate kw)
                (output_scores kw)
                (Some (transformers_filter_allowed_tokens
                         (H := host_of regular_tokens)))
                (others kw) in
     let host := model_generate (H := host_of regular_tokens) kw' w in
     let call := generate_enforced_entry tok host_of kw w in
     call = (rbind (fst host) (fun out => Ok (mkEnforced out None)), snd host) /\
     (forall e, fst call = Raise e <-> fst host = Raise e) /\
     (forall r, fst call = Ok r ->
                enforced_scores r = None /\ fst host = Ok (output r)) /\
     model_hook (snd call) = model_hook w /\
     length (managers (snd call)) = length (managers w)) /\
  (encode tok "0" = [] ->
   generate_enforced_entry tok host_of kw w = (Raise IndexError, w)) /\
  (forall regular_tokens,
     _build_regular_tokens_list tok = Ok regular_tokens ->
     input_ids kw = None ->
     generate_enforced_entry tok host_of kw w = (Raise KeyError, w)) /\
  (forall regular_tokens,
     _build_regular_tokens_list tok = Ok regular_tokens ->
     input_ids kw <> None ->
     num_beams kw = Some Py.VNone ->
     generate_enforced_entry tok host_of kw w = (Raise TypeError, w)) /\
  (forall regular_tokens,
     _build_regular_tokens_list tok = Ok regular_tokens ->
     input_ids kw <> None ->
     num_beams kw <> Some Py.VNone ->
     prefix_allowed_tokens_fn kw <> None ->
     generate_enforced_entry tok host_of kw w = (Raise TypeError, w)).
Proof.
  intros Hshape. unfold generate_enforced_entry.
  split; [|split; [|split; [|split]]].
  - intros rt Hb Hin Hnb Hpre. cbv zeta. rewrite Hb.
    pose proof (shape_disqualifies_support kw Hshape Hin Hnb) as Hsd.
    exact (plain_call (H := host_of rt) kw w Hsd Hpre).
  - intros He. unfold _build_regular_tokens_list. rewrite He. reflexivity.
  - intros rt Hb Hin. rewrite Hb.
    rewrite generate_enforced_unfold, advanced_mode_unfold.
    unfold support_diagnostics, is_multi_inputs. rewrite Hin. reflexivity.
  - intros rt Hb Hin Hnb. rewrite Hb.
    rewrite generate_enforced_unfold, advanced_mode_unfold.
    unfold support_diagnostics, is_multi_inputs, is_multi_beams.
    destruct (input_ids kw); [|congruence]. rewrite Hnb. reflexivity.
  - intros rt Hb Hin Hnb Hpre. rewrite Hb.
    pose proof (shape_disqualifies_support kw Hshape Hin Hnb) as Hsd.
    rewrite generate_enforced_unfold, advanced_mode_unfold, Hsd.
    simpl rbind. rewrite andb_false_r.
    unfold generate_plain, bind, lift, with_prefix_allowed_tokens_fn.
    destruct (prefix_allowed_tokens_fn kw); [reflexivity|congruence].
Qed.

Lemma fallback_correct_witness :
  generate_enforced_entry Demo2.tok Demo2.host_of Demo.kw_pair Demo.pristine
  = (Ok (mkEnforced (mkOutput [[0%Z; 1%Z; 2%Z]]) None),
     snd (model_generate (H := Demo.scripted Demo.two_steps)
            Demo.kw_pair Demo.pristine)).
Proof.
  assert (Hshape : shape_disqualifies Demo.kw_pair).
  { left. exists [[0%Z]; [0%Z]]. split; [reflexivity|exact (le_n 2)]. }
  refine (proj1 (proj1 (fallback_correct Demo2.tok Demo2.host_of
                          Demo.kw_pair Demo.pristine Hshape)
                   [(1%Z, " a"%string); (2%Z, "b"%string); (3%Z, "b"%string)]
                   eq_refl _ _ eq_refl)).
  - discriminate.
  - discriminate.
Defined.

(** ** The scenario of the specification, end to end

    Prompt [A]; the host resolves the chain, performs two decoding steps
    and returns [A B C].  The recorder captured the scores of both steps as
    the host computed them, the hook is the model's own again, and the
    table has one row per generated token. *)

Lemma scenario_generation :
  try_finally (model_generate (H := Demo.scripted Demo.two_steps) Demo.kw_single)
    (LogitsSaverManager.unreplace_logits_warper 0)
    (snd (install (H := Demo.scripted Demo.two_steps) Demo.pristine))
  = (Ok (mkOutput [[0%Z; 1%Z; 2%Z]]), Demo.recorded).
Proof. reflexivity. Qed.

Lemma scenario_recorded :
  fst (LogitsSaverManager.warper_scores 0 Demo.recorded)
  = Ok Demo.recorded_scores.
Proof. reflexivity. Qed.

Example scenario_two_steps :
  generate_enforced (H := Demo.scripted Demo.two_steps)
    Demo.kw_single Demo.pristine
  = (Ok (mkEnforced
           (mkOutput [[0%Z; 1%Z; 2%Z]])
           (Some (mkDf ["B"%string; "C"%string] [1%Z; 2%Z]
                       [(exp 1 / Torch.sum_exp [0; 1; 0])%R;
                        (exp 1 / Torch.sum_exp [0; 0; 1])%R]
                       ["B"%string; "C"%string] [1%Z; 2%Z]
                       [(exp 1 / Torch.sum_exp [0; 1; 0])%R;
                        (exp 1 / Torch.sum_exp [0; 0; 1])%R]))),
     Demo.recorded).
Proof.
  rewrite generate_enforced_unfold.
  change (advanced_mode Demo.kw_single) with (Ok true).
  rewrite generate_advanced_unfold.
  change (length (managers Demo.pristine)) with 0.
  rewrite scenario_generation, diagnostics_eq, scenario_recorded.
  cbn [first_sequence sequences rbind]. unfold table_of.
  rewrite demo_leading_scores. reflexivity.
Qed.

(** C4 -- Alignment of the diagnostic table.  Take a call in instrumented
    mode whose host run returned and left [k] step score vectors in the
    recorder, the generated sequence having at least [k] tokens.  Then
    every result of [generate_enforced] carries a table whose six columns
    have length exactly [k] and whose [generated_token_idx] column is the
    last-[k] suffix of the generated sequence, element by element.  Such a
    result is indeed returned as soon as one step was recorded and the
    suffix holds ids of the vocabulary. *)
Theorem diagnostic_alignment {H : Host} (kw : kwargs) (w : world)
        (out : generate_output) (scores : list Torch.tensor)
        (sequence : Torch.long_tensor) (V : nat) :
  advanced_mode kw = Ok true ->
  let self := length (managers w) in
  let guarded :=
    try_finally (model_generate kw)
      (LogitsSaverManager.unreplace_logits_warper self) (snd (install w)) in
  fst guarded = Ok out ->
  fst (LogitsSaverManager.warper_scores self (snd guarded)) = Ok scores ->
  step_vectors V scores = true ->
  first_sequence out = Ok sequence ->
  length scores <= length sequence ->
  let k := length scores in
  let suffix := skipn (length sequence - k) sequence in
  (forall r, fst (generate_enforced kw w) = Ok r ->
     output r = out /\
     exists df,
       enforced_scores r = Some df /\
       length (generated_token df) = k /\
       length (generated_token_idx df) = k /\
       length (generated_score df) = k /\
       length (leading_token df) = k /\
       length (leading_token_idx df) = k /\
       length (leading_score df) = k /\
       generated_token_idx df = suffix /\
       forall i, i < k ->
         nth_error (generated_token_idx df) i = nth_error suffix i) /\
  (1 <= k -> forallb (in_vocabulary V) suffix = true ->
   exists r, fst (generate_enforced kw w) = Ok r).
Proof.
  intros Hmode self guarded Hout Hs Hsv Hseq Hle k suffix.
  rewrite generate_enforced_unfold, Hmode, generate_advanced_unfold.
  fold self. fold guarded.
  destruct guarded as [r0 w4]. simpl in Hout, Hs. subst r0.
  destruct (table_alignment w4 self out scores sequence V Hs Hseq Hsv Hle)
    as [Hall Hex].
  fold k in Hall, Hex. fold suffix in Hall, Hex.
  split.
  - intros r Hr.
    destruct (diagnostics self out w4) as [[df|e] w5] eqn:Hd;
      simpl in Hr; [|discriminate].
    inversion Hr; subst r; clear Hr. simpl.
    split; [reflexivity|]. exists df. split; [reflexivity|].
    apply Hall. reflexivity.
  - intros Hk Htok. destruct (Hex Hk Htok) as [df Hdf].
    destruct (diagnostics self out w4) as [[df'|e] w5]; simpl in Hdf;
      [|discriminate].
    eexists; reflexivity.
Qed.

Lemma diagnostic_alignment_witness :
  exists r df,
    fst (generate_enforced (H := Demo.scripted Demo.two_steps)
           Demo.kw_single Demo.pristine) = Ok r /\
    enforced_scores r = Some df /\
    generated_token_idx df = [1%Z; 2%Z] /\
    length (leading_score df) = 2.
Proof.
  pose proof (diagnostic_alignment (H := Demo.scripted Demo.two_steps)
                Demo.kw_single Demo.pristine
                (mkOutput [[0%Z; 1%Z; 2%Z]])
                Demo.recorded_scores [0%Z; 1%Z; 2%Z] 3
                eq_refl eq_refl eq_refl eq_refl eq_refl
                (le_S _ _ (le_n 2))) as [Hall Hex].
  destruct (Hex (le_S _ _ (le_n 1)) eq_refl) as [r Hr].
  destruct (Hall r Hr) as [_ [df [Hdf [_ [_ [_ [_ [_ [Hl [Hidx _]]]]]]]]]].
  exists r, df. split; [exact Hr|]. split; [exact Hdf|].
  split; [exact Hidx|exact Hl].
Defined.

(** ** What the recorder holds after a run

    The processors that follow the recorder in the chain may write into
    the tensor they are given or return new ones: the recorder's copies
    are out of their reach. *)

Lemma host_chain_keeps {H : Host} rest ids :
  host_only rest = true ->
  forall cur w P,
    cur < length (heap w) ->
    Forall (fun p => p < length (heap w) /\ p <> cur) P ->
    exists cur' w',
      call_chain rest ids cur w = (Ok cur', w') /\
      savers w' = savers w /\
      managers w' = managers w /\
      model_hook w' = model_hook w /\
      (forall p, In p P ->
         p < length (heap w') /\ nth p (heap w') [] = nth p (heap w) []).
Proof.
  induction rest as [|p rest IH]; intros Hrest cur w P Hcur HP.
  - exists cur, w. repeat split; auto.
    rewrite Forall_forall in HP. apply HP; assumption.
  - simpl in Hrest. apply andb_true_iff in Hrest. destruct Hrest as [Hp Hrest].
    cbn [call_chain]. unfold bind.
    assert (Ecall : call_processor p ids cur w = host_processor p ids cur w)
      by (destruct p; [discriminate Hp|reflexivity|reflexivity]).
    rewrite Ecall. unfold host_processor.
    rewrite Forall_forall in HP.
    destruct (host_in_place p).
    + set (w1 := set_heap (update cur _ (heap w)) w).
      destruct (IH Hrest cur w1 P) as [cur' [w' [E [Hs [Hm [Hh HP']]]]]].
      * subst w1; simpl. rewrite update_length. exact Hcur.
      * apply Forall_forall. intros q Hq. subst w1; simpl.
        rewrite update_length. apply HP; exact Hq.
      * exists cur', w'. split; [exact E|].
        split; [exact Hs|]. split; [exact Hm|]. split; [exact Hh|].
        intros q Hq. destruct (HP' q Hq) as [Hlt Hval].
        split; [exact Hlt|]. rewrite Hval. subst w1; simpl.
        apply update_nth_other. destruct (HP q Hq) as [_ Hne]. congruence.
    + set (w1 := set_heap (heap w ++ _) w).
      destruct (IH Hrest (length (heap w)) w1 P)
        as [cur' [w' [E [Hs [Hm [Hh HP']]]]]].
      * subst w1; simpl. rewrite length_app; simpl; lia.
      * apply Forall_forall. intros q Hq. subst w1; simpl.
        rewrite length_app; simpl. destruct (HP q Hq). lia.
      * exists cur', w'. split; [exact E|].
        split; [exact Hs|]. split; [exact Hm|]. split; [exact Hh|].
        intros q Hq. destruct (HP' q Hq) as [Hlt Hval].
        split; [exact Hlt|]. rewrite Hval. subst w1; simpl.
        apply app_nth1. destruct (HP q Hq). lia.
Qed.

Lemma saver_call_eq self ids scores w :
  LogitsSaverWarper.call self ids scores w =
  (Ok scores,
   set_savers
     (update self (fun s => s ++ [length (heap w)]) (savers w))
     (set_heap (heap w ++ [nth scores (heap w) []]) w)).
Proof. reflexivity. Qed.

Lemma step_records {H : Host} self s rest ids t recorded evs w :
  host_only rest = true ->
  recording self s recorded w ->
  exists w',
    run_events (EStep ids t :: evs) (PSaver s :: rest) w
    = run_events evs (PSaver s :: rest) w' /\
    recording self s (recorded ++ [t]) w' /\
    managers w' = managers w /\
    model_hook w' = model_hook w.
Proof.
  intros Hrest [Hw [Hs [Hlt Hval]]].
  cbn [run_events call_chain]. unfold bind, new_tensor.
  cbn [call_processor]. rewrite saver_call_eq.
  set (cur := length (heap w)).
  set (w0 := set_heap (heap w ++ [t]) w).
  set (w1 := set_savers _ (set_heap _ w0)).
  set (L := nth s (savers w) []) in *.
  assert (Hcopy : nth cur (heap w0) [] = t).
  { subst w0 cur; simpl. rewrite app_nth2 by lia.
    rewrite Nat.sub_diag. reflexivity. }
  assert (Hh1 : heap w1 = (heap w ++ [t]) ++ [t]).
  { subst w1. cbn [heap set_savers set_heap]. rewrite Hcopy. reflexivity. }
  assert (Hlen0 : length (heap w0) = S cur)
    by (subst w0 cur; simpl; rewrite length_app; simpl; lia).
  assert (Hlen1 : length (heap w1) = S (S cur))
    by (rewrite Hh1, !length_app; simpl; subst cur; lia).
  rewrite Forall_forall in Hlt.
  destruct (host_chain_keeps rest ids Hrest cur w1 (L ++ [S cur]))
    as [cur' [w' [E [Hsav [Hman [Hhk HP]]]]]].
  - rewrite Hlen1. lia.
  - apply Forall_forall. intros q Hq. rewrite Hlen1.
    apply in_app_or in Hq. destruct Hq as [Hq|[Hq|[]]].
    + specialize (Hlt q Hq). fold cur in Hlt. lia.
    + lia.
  - rewrite E. exists w'. split; [reflexivity|].
    split; [|split; [rewrite Hman; reflexivity|rewrite Hhk; reflexivity]].
    assert (HL' : nth s (savers w') [] = L ++ [S cur]).
    { rewrite Hsav. subst w1. cbn [savers set_savers set_heap].
      change (savers w0) with (savers w).
      rewrite update_nth_same by exact Hs.
      fold L. rewrite Hlen0. reflexivity. }
    unfold recording. rewrite Hman, HL'.
    split; [exact Hw|].
    split; [rewrite Hsav; subst w1; simpl; rewrite update_length; exact Hs|].
    split.
    + apply Forall_forall. intros q Hq. apply HP. exact Hq.
    + unfold deref. rewrite map_app. simpl. f_equal.
      * rewrite <- Hval. unfold deref. apply map_ext_in. intros q Hq.
        assert (Hin : In q (L ++ [S cur])) by (apply in_or_app; left; exact Hq).
        destruct (HP q Hin) as [_ Hv].
        rewrite Hv, Hh1. specialize (Hlt q Hq). fold cur in Hlt.
        rewrite app_nth1 by (rewrite length_app; simpl; lia).
        apply app_nth1. exact Hlt.
      * assert (Hin : In (S cur) (L ++ [S cur]))
          by (apply in_or_app; right; left; reflexivity).
        destruct (HP (S cur) Hin) as [_ Hv].
        rewrite Hv, Hh1. rewrite app_nth2 by (rewrite length_app; simpl; lia).
        rewrite length_app. cbn [length].
        replace (S cur - (length (heap w) + 1)) with 0 by (subst cur; lia).
        reflexivity.
Qed.

Lemma steps_record {H : Host} self s rest steps recorded w :
  host_only rest = true ->
  recording self s recorded w ->
  exists w',
    run_events (map (fun st => EStep (fst st) (snd st)) steps)
               (PSaver s :: rest) w = (Ok tt, w') /\
    recording self s (recorded ++ map snd steps) w'.
Proof.
  intros Hrest. revert recorded w.
  induction steps as [|[ids t] steps IH]; intros recorded w Hrec.
  - exists w. rewrite app_nil_r. split; [reflexivity|exact Hrec].
  - cbn [map fst snd].
    destruct (step_records self s rest ids t recorded
                (map (fun st => EStep (fst st) (snd st)) steps) w Hrest Hrec)
      as [w1 [E [Hrec1 _]]].
    rewrite E. destruct (IH _ _ Hrec1) as [w' [E' Hrec']].
    exists w'. split; [exact E'|].
    rewrite <- app_assoc in Hrec'. exact Hrec'.
Qed.

Lemma warper_scores_recording self s recorded w :
  recording self s recorded w ->
  forall h,
    fst (LogitsSaverManager.warper_scores self (set_model_hook h w))
    = Ok recorded.
Proof.
  intros [Hw [_ [_ Hval]]] h.
  unfold LogitsSaverManager.warper_scores. simpl managers.
  rewrite Hw. simpl. f_equal. exact Hval.
Qed.

(** X16 -- The record is the model's native scores.  On a model with
    its own resolution method, when the host resolves the chain once and then
    performs decoding steps, the recorder ends up holding, in order, the
    score tensors exactly as the host computed them at each step: one per
    step, whatever the constraint processor and the host's processors
    behind it do to the scores.  The outcome of the host passes through and
    the hook is the model's own again. *)
Theorem recording_is_native {H : Host} (kw : kwargs) (w : world)
        (generation_config : config)
        (steps : list (list (list Z) * Torch.tensor))
        (outc : result generate_output) :
  model_hook w = HOriginal ->
  host_only (original_get_logits_warper generation_config) = true ->
  let self := length (managers w) in
  host_generate (HReplaced self (Some transformers_filter_allowed_tokens)) kw
  = mkRun (resolve_then_steps generation_config steps) outc ->
  let guarded :=
    try_finally (model_generate kw)
      (LogitsSaverManager.unreplace_logits_warper self) (snd (install w)) in
  fst guarded = outc /\
  fst (LogitsSaverManager.warper_scores self (snd guarded))
  = Ok (map snd steps) /\
  model_hook (snd guarded) = HOriginal.
Proof.
  intros Hhook Hhost self Hrun guarded.
  destruct (guarded_generate kw w) as [Hfst Hrestored].
  fold self in Hfst, Hrestored. fold guarded in Hfst, Hrestored.
  rewrite Hhook in Hrestored.
  assert (Hgen : exists w',
             model_generate kw (snd (install w)) = (outc, w') /\
             exists s, recording self s (map snd steps) w').
  { pose proof (install_old_warper w) as Hold. fold self in Hold.
    rewrite Hhook in Hold.
    set (w2 := snd (install w)) in *.
    assert (Hself : self < length (managers w2)).
    { subst w2. rewrite install_eq. simpl. rewrite update_length, length_app.
      simpl. subst self. lia. }
    unfold model_generate, bind, read_model_hook.
    assert (Hh2 : model_hook w2
                  = HReplaced self (Some transformers_filter_allowed_tokens))
      by reflexivity.
    rewrite Hh2, Hrun. cbn [events outcome resolve_then_steps run_events].
    unfold bind at 1. unfold read_model_hook. rewrite Hh2.
    unfold bind at 1. change recursion_limit with (S (S 998)).
    rewrite (call_hook_over_original 998 self _ generation_config w2 Hold).
    set (s := length (savers w2)).
    set (w3 := set_managers _ (set_savers _ w2)).
    assert (Hrec : recording self s [] w3).
    { assert (Es : s = length (savers w)) by reflexivity.
      unfold recording. subst w3. simpl.
      rewrite update_nth_same by exact Hself. simpl.
      rewrite length_app. simpl.
      rewrite app_nth2 by lia.
      replace (s - length (savers w)) with 0 by lia. simpl.
      repeat split; auto. lia. }
    destruct (steps_record self s
                (PPrefixConstrained transformers_filter_allowed_tokens 1
                   :: original_get_logits_warper generation_config)
                steps [] w3) as [w' [E Hrec']].
    - simpl. exact Hhost.
    - exact Hrec.
    - rewrite E. unfold lift. exists w'. split; [reflexivity|].
      exists s. exact Hrec'. }
  destruct Hgen as [w' [Hgen [s Hrec]]].
  split; [rewrite Hfst, Hgen; reflexivity|].
  split; [|exact Hrestored].
  subst guarded. unfold try_finally. rewrite Hgen.
  rewrite (surjective_pairing
             (LogitsSaverManager.unreplace_logits_warper self w')).
  rewrite unreplace_hook. simpl fst. cbv beta iota.
  apply (warper_scores_recording self s _ w' Hrec).
Qed.

Lemma recording_is_native_witness :
  fst (LogitsSaverManager.warper_scores 0 Demo.recorded)
  = Ok Demo.recorded_scores.
Proof.
  exact (proj1 (proj2
    (recording_is_native (H := Demo.scripted Demo.two_steps)
       Demo.kw_single Demo.pristine tt
       [([[0%Z]], [[0%R; 1%R; 0%R]]); ([[0%Z; 1%Z]], [[0%R; 0%R; 1%R]])]
       (Ok (mkOutput [[0%Z; 1%Z; 2%Z]]))
       eq_refl eq_refl eq_refl))).
Defined.

(** * Further properties of the code *)

(** ** [_build_regular_tokens_list] *)

Lemma regular_tokens_loop_eq tok token_0 ids acc :
  regular_tokens_loop tok token_0 ids acc
  = acc ++ map (fun i => (i, drop_first (decode tok [token_0; i])))
               (List.filter (fun i => negb (py_in i (all_special_ids tok))) ids).
Proof.
  revert acc; induction ids as [|i ids IH]; intros acc; simpl.
  - rewrite app_nil_r. reflexivity.
  - destruct (py_in i (all_special_ids tok)); simpl.
    + apply IH.
    + rewrite IH, <- app_assoc. reflexivity.
Qed.

Lemma py_in_iff x l : py_in x l = true <-> In x l.
Proof.
  unfold py_in. rewrite existsb_exists. split.
  - intros [y [Hy E]]. apply Z.eqb_eq in E. subst. exact Hy.
  - intros Hx. exists x. split; [exact Hx|apply Z.eqb_refl].
Qed.

Lemma py_range_In n i : In i (py_range n) <-> (0 <= i < n)%Z.
Proof.
  unfold py_range. rewrite in_map_iff. split.
  - intros [k [E Hk]]. apply in_seq in Hk. lia.
  - intros Hi. exists (Z.to_nat i). split; [lia|]. apply in_seq. lia.
Qed.

Lemma py_range_sorted n : StronglySorted Z.lt (py_range n).
Proof.
  unfold py_range. generalize (Z.to_nat n) as k. intros k.
  generalize 0 as a. induction k as [|k IH]; intros a; simpl.
  - constructor.
  - constructor; [apply IH|].
    apply Forall_forall. intros z Hz. apply in_map_iff in Hz.
    destruct Hz as [j [E Hj]]. apply in_seq in Hj. lia.
Qed.

Lemma filter_sorted (f : Z -> bool) l :
  StronglySorted Z.lt l -> StronglySorted Z.lt (List.filter f l).
Proof.
  induction 1 as [|x l Hs IH Hall]; simpl.
  - constructor.
  - destruct (f x); [|exact IH].
    constructor; [exact IH|].
    rewrite Forall_forall in *. intros y Hy.
    apply filter_In in Hy. apply Hall. tauto.
Qed.

Lemma sorted_NoDup l : StronglySorted Z.lt l -> NoDup l.
Proof.
  induction 1 as [|x l Hs IH Hall]; constructor; [|exact IH].
  intros Hx. rewrite Forall_forall in Hall. specialize (Hall x Hx). lia.
Qed.

Lemma build_regular_tokens_inv tok rt :
  _build_regular_tokens_list tok = Ok rt ->
  exists token_0,
    last_item (encode tok "0") = Ok token_0 /\
    rt = map (fun i => (i, drop_first (decode tok [token_0; i])))
             (List.filter (fun i => negb (py_in i (all_special_ids tok)))
                     (py_range (vocab_size tok))).
Proof.
  unfold _build_regular_tokens_list.
  destruct (last_item (encode tok "0")) as [token_0|e]; [|discriminate].
  simpl. intros E; inversion E. exists token_0. split; [reflexivity|].
  rewrite regular_tokens_loop_eq. reflexivity.
Qed.

(** X1 -- The ids of the regular tokens.  The list holds exactly the ids
    of [range(vocab_size)] that are not special, each once and in
    increasing order. *)
Theorem regular_tokens_ids (tok : tokenizer) (rt : list (Z * string)) :
  _build_regular_tokens_list tok = Ok rt ->
  (forall i, In i (map fst rt) <->
             (0 <= i < vocab_size tok)%Z /\ ~ In i (all_special_ids tok)) /\
  StronglySorted Z.lt (map fst rt) /\
  NoDup (map fst rt).
Proof.
  intros Hb. destruct (build_regular_tokens_inv tok rt Hb) as [t0 [_ E]].
  assert (Hids : map fst rt
                 = List.filter (fun i => negb (py_in i (all_special_ids tok)))
                          (py_range (vocab_size tok))).
  { subst rt. rewrite map_map. simpl. apply map_id. }
  rewrite Hids.
  assert (Hs : StronglySorted Z.lt
                 (List.filter (fun i => negb (py_in i (all_special_ids tok)))
                         (py_range (vocab_size tok))))
    by (apply filter_sorted, py_range_sorted).
  split; [|split; [exact Hs|apply sorted_NoDup; exact Hs]].
  intros i. rewrite filter_In, py_range_In, negb_true_iff.
  rewrite <- py_in_iff. destruct (py_in i (all_special_ids tok)); intuition congruence.
Qed.

Lemma regular_tokens_ids_witness :
  In 3%Z (map fst [(1%Z, " a"%string); (2%Z, "b"%string); (3%Z, "b"%string)])
  <-> (0 <= 3 < 5)%Z /\ ~ In 3%Z [0%Z; 4%Z].
Proof.
  exact (proj1 (regular_tokens_ids Demo2.tok
                  [(1%Z, " a"%string); (2%Z, "b"%string); (3%Z, "b"%string)]
                  eq_refl) 3%Z).
Defined.

(** X2 -- The texts of the regular tokens.  Each entry pairs an id with
    the decoding of [[token_0, id]] without its first character, where
    [token_0] is the last id of [encode("0")]: a token that starts a word
    keeps its leading space, and an empty decoding stays empty. *)
Theorem regular_tokens_text (tok : tokenizer) (rt : list (Z * string)) :
  _build_regular_tokens_list tok = Ok rt ->
  exists token_0,
    last_item (encode tok "0") = Ok token_0 /\
    In token_0 (encode tok "0") /\
    forall i s, In (i, s) rt ->
      s = drop_first (decode tok [token_0; i]) /\
      (decode tok [token_0; i] = EmptyString -> s = EmptyString) /\
      (forall c s', decode tok [token_0; i] = String c s' -> s = s').
Proof.
  intros Hb. destruct (build_regular_tokens_inv tok rt Hb) as [t0 [Hl E]].
  exists t0. split; [exact Hl|]. split.
  - unfold last_item in Hl. destruct (rev (encode tok "0")) as [|x l] eqn:Er;
      inversion Hl; subst x.
    apply in_rev. rewrite Er. left; reflexivity.
  - intros i s Hin. subst rt. apply in_map_iff in Hin.
    destruct Hin as [j [Ej _]]. inversion Ej; subst j s.
    split; [reflexivity|]. split.
    + intros Ed. rewrite Ed. reflexivity.
    + intros c s' Ed. rewrite Ed. reflexivity.
Qed.

Lemma regular_tokens_text_witness :
  exists token_0,
    last_item (encode Demo2.tok "0") = Ok token_0 /\
    In token_0 (encode Demo2.tok "0") /\
    forall i s,
      In (i, s) [(1%Z, " a"%string); (2%Z, "b"%string); (3%Z, "b"%string)] ->
      s = drop_first (decode Demo2.tok [token_0; i]) /\
      (decode Demo2.tok [token_0; i] = EmptyString -> s = EmptyString) /\
      (forall c s', decode Demo2.tok [token_0; i] = String c s' -> s = s').
Proof.
  exact (regular_tokens_text Demo2.tok
           [(1%Z, " a"%string); (2%Z, "b"%string); (3%Z, "b"%string)] eq_refl).
Defined.

(** X3 -- Failure and size of the token list.  The function raises, an
    [IndexError], exactly when [encode("0")] is empty; otherwise it returns
    a list whose length is the vocabulary size (none when it is negative)
    less the number of ids of [range(vocab_size)] that are special. *)
Theorem regular_tokens_total (tok : tokenizer) :
  (encode tok "0" = [] -> _build_regular_tokens_list tok = Raise IndexError) /\
  (encode tok "0" <> [] ->
   exists rt,
     _build_regular_tokens_list tok = Ok rt /\
     length rt
     + length (List.filter (fun i => py_in i (all_special_ids tok))
                      (py_range (vocab_size tok)))
     = Z.to_nat (vocab_size tok)).
Proof.
  split.
  - intros E. unfold _build_regular_tokens_list. rewrite E. reflexivity.
  - intros Hne. unfold _build_regular_tokens_list, last_item.
    destruct (rev (encode tok "0")) as [|x l] eqn:Er.
    + exfalso. apply Hne. rewrite <- (rev_involutive (encode tok "0")), Er.
      reflexivity.
    + simpl. eexists. split; [reflexivity|].
      rewrite regular_tokens_loop_eq. simpl. rewrite length_map.
      assert (Hlen : forall l0 : list Z,
                 length (List.filter (fun i => negb (py_in i (all_special_ids tok))) l0)
                 + length (List.filter (fun i => py_in i (all_special_ids tok)) l0)
                 = length l0).
      { induction l0 as [|z l0 IH]; simpl; [reflexivity|].
        destruct (py_in z (all_special_ids tok)); simpl; lia. }
      rewrite Hlen. unfold py_range. rewrite length_map, length_seq.
      reflexivity.
Qed.

Lemma regular_tokens_total_witness :
  exists rt, _build_regular_tokens_list Demo2.tok = Ok rt /\ length rt + 2 = 5.
Proof.
  destruct (proj2 (regular_tokens_total Demo2.tok)) as [rt [E Hlen]].
  - discriminate.
  - exists rt. split; [exact E|exact Hlen].
Defined.

(** ** [generate_enforced]: every path *)

Lemma generate_plain_eq {H : Host} kw w :
  generate_plain kw w =
  match with_prefix_allowed_tokens_fn kw transformers_filter_allowed_tokens with
  | Raise e => (Raise e, w)
  | Ok kw' =>
      (rbind (fst (model_generate kw' w))
             (fun out => Ok (mkEnforced out None)),
       snd (model_generate kw' w))
  end.
Proof.
  unfold generate_plain, bind, lift.
  destruct (with_prefix_allowed_tokens_fn kw _) as [kw'|e]; [|reflexivity].
  destruct (model_generate kw' w) as [[out|e] w1]; reflexivity.
Qed.

Lemma generate_advanced_hook {H : Host} kw w :
  model_hook (snd (generate_advanced kw w)) = model_hook w.
Proof.
  rewrite generate_advanced_unfold.
  destruct (guarded_generate kw w) as [_ Hhook].
  destruct (try_finally _ _ _) as [[out|e] w4]; simpl in Hhook; [|exact Hhook].
  rewrite diagnostics_eq. destruct (rbind _ _); exact Hhook.
Qed.

(** X4 -- The hook survives every call.  Whatever the keyword arguments,
    the state of the model and the behaviour of the host, and whether
    [generate_enforced] returns or raises, the model's
    [_get_logits_warper] is afterwards what it was before the call. *)
Theorem hook_survives_every_call {H : Host} (kw : kwargs) (w : world) :
  model_hook (snd (generate_enforced kw w)) = model_hook w.
Proof.
  rewrite generate_enforced_unfold.
  destruct (advanced_mode kw) as [[|]|e].
  - apply generate_advanced_hook.
  - rewrite generate_plain_eq.
    destruct (with_prefix_allowed_tokens_fn kw _) as [kw'|e]; [|reflexivity].
    simpl. apply (model_generate_stable kw' w).
  - reflexivity.
Qed.

(** X5 -- Errors of the mode selector.  A call without [input_ids] raises
    a [KeyError], and a call with [input_ids] and [num_beams=None] a
    [TypeError]; the missing key is reported first.  In both cases nothing
    has happened yet: no manager exists, the hook is untouched and the host
    loop was not called. *)
Theorem selector_errors {H : Host} (kw : kwargs) (w : world) :
  (input_ids kw = None -> generate_enforced kw w = (Raise KeyError, w)) /\
  (input_ids kw <> None -> num_beams kw = Some Py.VNone ->
   generate_enforced kw w = (Raise TypeError, w)).
Proof.
  split.
  - intros Hin. rewrite generate_enforced_unfold, advanced_mode_unfold.
    unfold support_diagnostics, is_multi_inputs. rewrite Hin. reflexivity.
  - intros Hin Hnb. rewrite generate_enforced_unfold, advanced_mode_unfold.
    unfold support_diagnostics, is_multi_inputs, is_multi_beams.
    destruct (input_ids kw); [|congruence]. rewrite Hnb. reflexivity.
Qed.

Lemma selector_errors_witness :
  generate_enforced (H := Demo.scripted Demo.two_steps)
    Demo.kw_no_input Demo.pristine = (Raise KeyError, Demo.pristine) /\
  generate_enforced (H := Demo.scripted Demo.two_steps)
    Demo2.kw_none_beams Demo.pristine = (Raise TypeError, Demo.pristine).
Proof.
  destruct (selector_errors (H := Demo.scripted Demo.two_steps)
              Demo.kw_no_input Demo.pristine) as [Hkey _].
  destruct (selector_errors (H := Demo.scripted Demo.two_steps)
              Demo2.kw_none_beams Demo.pristine) as [_ Htype].
  split; [exact (Hkey eq_refl)|].
  apply Htype; [discriminate|reflexivity].
Defined.

(** X6 -- A result without sequences.  In instrumented mode, when the
    host's [generate] returns an output whose [sequences] is empty,
    [output.sequences[0]] raises: [generate_enforced] fails with an
    [IndexError], after the hook has been put back. *)
Theorem empty_sequences_raise {H : Host} (kw : kwargs) (w : world)
        (out : generate_output) :
  advanced_mode kw = Ok true ->
  fst (model_generate kw (snd (install w))) = Ok out ->
  sequences out = [] ->
  fst (generate_enforced kw w) = Raise IndexError /\
  model_hook (snd (generate_enforced kw w)) = model_hook w.
Proof.
  intros Hmode Hout Hseq.
  rewrite generate_enforced_unfold, Hmode.
  split; [|apply generate_advanced_hook].
  rewrite generate_advanced_unfold.
  destruct (guarded_generate kw w) as [Hfst _]. rewrite Hout in Hfst.
  destruct (try_finally _ _ _) as [r w4]. simpl in Hfst. subst r.
  rewrite diagnostics_eq. unfold first_sequence. rewrite Hseq. reflexivity.
Qed.

Lemma empty_sequences_raise_witness :
  fst (generate_enforced (H := Demo.scripted Demo2.no_sequence)
         Demo.kw_single Demo.pristine) = Raise IndexError.
Proof.
  exact (proj1 (empty_sequences_raise (H := Demo.scripted Demo2.no_sequence)
                  Demo.kw_single Demo.pristine (mkOutput [])
                  eq_refl eq_refl eq_refl)).
Defined.

(** ** Host runs of other shapes *)

Lemma install_session {H : Host} w :
  model_hook w = HOriginal ->
  session (length (managers w)) (Some transformers_filter_allowed_tokens)
          (snd (install w)) /\
  warper (nth (length (managers w)) (managers (snd (install w))) no_manager)
  = None.
Proof.
  intros Hhook. pose proof (install_old_warper w) as Hold.
  rewrite Hhook in Hold.
  assert (Hlt : length (managers w)
                < length (managers w ++ [mkManager None HNone]))
    by (rewrite length_app; simpl; lia).
  split.
  - split; [reflexivity|]. split; [|exact Hold].
    rewrite install_eq. simpl. rewrite update_length. exact Hlt.
  - rewrite install_eq. simpl.
    rewrite update_nth_same by exact Hlt. simpl.
    rewrite app_nth2 by lia. rewrite Nat.sub_diag. reflexivity.
Qed.

Lemma resolve_starts_recording {H : Host} self filter_func cfg evs chain w :
  session self filter_func w ->
  exists w',
    run_events (EResolve cfg :: evs) chain w
    = run_events evs (session_chain filter_func cfg (length (savers w))) w' /\
    session self filter_func w' /\
    recording self (length (savers w)) [] w'.
Proof.
  intros [Hhook [Hself Hold]].
  cbn [run_events]. unfold bind at 1. unfold read_model_hook.
  rewrite Hhook. unfold bind at 1. change recursion_limit with (S (S 998)).
  rewrite (call_hook_over_original 998 self filter_func cfg w Hold).
  set (w' := set_managers _ (set_savers _ w)).
  exists w'. split; [destruct filter_func; reflexivity|].
  subst w'. unfold session, recording. simpl.
  rewrite update_length, update_nth_same by exact Hself. simpl.
  rewrite length_app. simpl.
  rewrite app_nth2 by lia. rewrite Nat.sub_diag. simpl.
  repeat split; auto. lia.
Qed.

Lemma steps_then {H : Host} self filter_func s rest steps evs recorded w :
  host_only rest = true ->
  session self filter_func w ->
  recording self s recorded w ->
  exists w',
    run_events (steps_only steps ++ evs) (PSaver s :: rest) w
    = run_events evs (PSaver s :: rest) w' /\
    session self filter_func w' /\
    recording self s (recorded ++ map snd steps) w'.
Proof.
  intros Hrest. revert recorded w.
  induction steps as [|[ids t] steps IH]; intros recorded w Hses Hrec.
  - exists w. rewrite app_nil_r. split; [reflexivity|]. split; assumption.
  - change (@steps_only config ((ids, t) :: steps) ++ evs)
      with (EStep ids t :: @steps_only config steps ++ evs).
    destruct (step_records self s rest ids t recorded
                (steps_only steps ++ evs) w Hrest Hrec)
      as [w1 [E [Hrec1 [Hman Hhk]]]].
    rewrite E.
    assert (Hses1 : session self filter_func w1).
    { destruct Hses as [A [B C]]. unfold session.
      rewrite Hman, Hhk. auto. }
    destruct (IH _ _ Hses1 Hrec1) as [w' [E' [Hses' Hrec']]].
    exists w'. split; [exact E'|]. split; [exact Hses'|].
    rewrite <- app_assoc in Hrec'. exact Hrec'.
Qed.

Lemma session_chain_host_only {H : Host} filter_func cfg s :
  host_only (original_get_logits_warper cfg) = true ->
  exists rest,
    session_chain filter_func cfg s = PSaver s :: rest /\
    host_only rest = true.
Proof.
  intros Hh. unfold session_chain. destruct filter_func as [f|].
  - eexists. split; [reflexivity|]. simpl. exact Hh.
  - eexists. split; [reflexivity|exact Hh].
Qed.

Lemma guarded_scores {H : Host} kw w self outc w' s recorded :
  model_generate kw (snd (install w)) = (outc, w') ->
  recording self s recorded w' ->
  fst (LogitsSaverManager.warper_scores self
         (snd (try_finally (model_generate kw)
                 (LogitsSaverManager.unreplace_logits_warper self)
                 (snd (install w)))))
  = Ok recorded.
Proof.
  intros Hgen Hrec. unfold try_finally. rewrite Hgen.
  rewrite (surjective_pairing
             (LogitsSaverManager.unreplace_logits_warper self w')).
  rewrite unreplace_hook. simpl fst. cbv beta iota.
  apply (warper_scores_recording self s _ w' Hrec).
Qed.

(** X7 -- A fresh recorder at every resolution.  When the host resolves
    the chain a second time in the middle of a run, the replacement
    function creates a new recorder and [self.warper] points to it: what
    the diagnostics read afterwards are the scores of the steps performed
    since the last resolution only, those recorded before it are left
    out. *)
Theorem second_resolution_restarts_record {H : Host} (kw : kwargs)
        (w : world) (config1 config2 : config)
        (steps1 steps2 : list (list (list Z) * Torch.tensor))
        (outc : result generate_output) :
  model_hook w = HOriginal ->
  host_only (original_get_logits_warper config1) = true ->
  host_only (original_get_logits_warper config2) = true ->
  let self := length (managers w) in
  host_generate (HReplaced self (Some transformers_filter_allowed_tokens)) kw
  = mkRun (resolve_twice config1 config2 steps1 steps2) outc ->
  let guarded :=
    try_finally (model_generate kw)
      (LogitsSaverManager.unreplace_logits_warper self) (snd (install w)) in
  fst guarded = outc /\
  fst (LogitsSaverManager.warper_scores self (snd guarded))
  = Ok (map snd steps2).
Proof.
  intros Hhook Hh1 Hh2 self Hrun guarded.
  destruct (guarded_generate kw w) as [Hfst _].
  fold self in Hfst. fold guarded in Hfst.
  destruct (install_session w Hhook) as [Hses _]. fold self in Hses.
  set (w2 := snd (install w)) in *.
  assert (Hgen : exists w' s,
             model_generate kw w2 = (outc, w') /\
             recording self s (map snd steps2) w').
  { unfold model_generate, bind at 1. unfold read_model_hook.
    destruct Hses as [Hm2 Hrest]. rewrite Hm2, Hrun.
    cbn [events outcome]. unfold resolve_twice. cbn [app].
    destruct (resolve_starts_recording self _ config1
                (steps_only steps1 ++ EResolve config2 :: steps_only steps2)
                [] w2 (conj Hm2 Hrest)) as [w3 [E3 [Hses3 Hrec3]]].
    unfold bind at 1. rewrite E3.
    destruct (session_chain_host_only
                (Some transformers_filter_allowed_tokens) config1
                (length (savers w2)) Hh1) as [rest1 [Ec1 Hr1]].
    rewrite Ec1.
    destruct (steps_then self _ _ rest1 steps1
                (EResolve config2 :: steps_only steps2) [] w3 Hr1 Hses3 Hrec3)
      as [w4 [E4 [Hses4 _]]].
    rewrite E4.
    destruct (resolve_starts_recording self _ config2 (steps_only steps2)
                (PSaver (length (savers w2)) :: rest1) w4 Hses4)
      as [w5 [E5 [Hses5 Hrec5]]].
    rewrite E5.
    destruct (session_chain_host_only
                (Some transformers_filter_allowed_tokens) config2
                (length (savers w4)) Hh2) as [rest2 [Ec2 Hr2]].
    rewrite Ec2.
    destruct (steps_then self _ _ rest2 steps2 [] [] w5 Hr2 Hses5 Hrec5)
      as [w6 [E6 [_ Hrec6]]].
    rewrite app_nil_r in E6. rewrite E6. cbn [run_events]. unfold ret, lift.
    exists w6, (length (savers w4)). split; [reflexivity|exact Hrec6]. }
  destruct Hgen as [w' [s [Hgen Hrec]]].
  split; [rewrite Hfst, Hgen; reflexivity|].
  exact (guarded_scores kw w self outc w' s _ Hgen Hrec).
Qed.

Lemma second_resolution_restarts_record_witness :
  fst (LogitsSaverManager.warper_scores 0
         (snd (try_finally
                 (model_generate (H := Demo.scripted Demo2.resolved_twice)
                    Demo.kw_single)
                 (LogitsSaverManager.unreplace_logits_warper 0)
                 (snd (install (H := Demo.scripted Demo2.resolved_twice)
                         Demo.pristine)))))
  = Ok [[[0%R; 0%R; 1%R]]].
Proof.
  exact (proj2
    (second_resolution_restarts_record
       (H := Demo.scripted Demo2.resolved_twice)
       Demo.kw_single Demo.pristine tt tt
       [([[0%Z]], [[0%R; 1%R; 0%R]])] [([[0%Z; 1%Z]], [[0%R; 0%R; 1%R]])]
       (Ok (mkOutput [[0%Z; 1%Z; 2%Z]]))
       eq_refl eq_refl eq_refl eq_refl)).
Defined.

Lemma steps_without_chain {H : Host} steps w :
  exists w',
    run_events (steps_only steps) [] w = (Ok tt, w') /\
    managers w' = managers w.
Proof.
  revert w; induction steps as [|[ids t] steps IH]; intros w.
  - exists w. split; reflexivity.
  - change (@steps_only config ((ids, t) :: steps))
      with (EStep ids t :: @steps_only config steps).
    cbn [run_events call_chain]. unfold bind, new_tensor, ret.
    destruct (IH (set_heap (heap w ++ [t]) w)) as [w' [E Hm]].
    exists w'. split; [exact E|exact Hm].
Qed.

Lemma install_warper_none {H : Host} w :
  warper (nth (length (managers w)) (managers (snd (install w))) no_manager)
  = None.
Proof.
  rewrite install_eq. simpl.
  rewrite update_nth_same by (rewrite length_app; simpl; lia). simpl.
  rewrite app_nth2 by lia. rewrite Nat.sub_diag. reflexivity.
Qed.

(** X8 -- A host that never resolves the chain.  [self.warper] is created
    by the replacement function only; when the host's [generate] performs
    its steps without calling [_get_logits_warper] (as a loop does that
    resolves warpers for sampling only) and returns its sequences, the
    recorder does not exist and [get_generated_scores] fails:
    [generate_enforced] raises an [AttributeError] instead of returning the
    generation, the hook being restored. *)
Theorem unresolved_chain_raises {H : Host} (kw : kwargs) (w : world)
        (steps : list (list (list Z) * Torch.tensor))
        (out : generate_output) :
  advanced_mode kw = Ok true ->
  let self := length (managers w) in
  host_generate (HReplaced self (Some transformers_filter_allowed_tokens)) kw
  = mkRun (steps_only steps) (Ok out) ->
  sequences out <> [] ->
  fst (generate_enforced kw w) = Raise AttributeError /\
  model_hook (snd (generate_enforced kw w)) = model_hook w.
Proof.
  intros Hmode self Hrun Hseq.
  rewrite generate_enforced_unfold, Hmode.
  split; [|apply generate_advanced_hook].
  rewrite generate_advanced_unfold. fold self.
  pose proof (install_warper_none w) as Hnone. fold self in Hnone.
  set (w2 := snd (install w)) in *.
  assert (Hgen : exists w', model_generate kw w2 = (Ok out, w') /\
                            managers w' = managers w2).
  { unfold model_generate, bind at 1. unfold read_model_hook.
    change (model_hook w2)
      with (HReplaced self (Some transformers_filter_allowed_tokens)).
    rewrite Hrun. cbn [events outcome].
    destruct (steps_without_chain steps w2) as [w' [E Hm]].
    unfold bind. rewrite E. unfold lift. exists w'. auto. }
  destruct Hgen as [w' [Hgen Hm]].
  unfold try_finally. rewrite Hgen.
  rewrite (surjective_pairing
             (LogitsSaverManager.unreplace_logits_warper self w')).
  rewrite unreplace_hook. simpl fst. cbv beta iota.
  rewrite diagnostics_eq. unfold first_sequence.
  destruct (sequences out) as [|sequence rest]; [contradiction|].
  unfold LogitsSaverManager.warper_scores. simpl managers.
  rewrite Hm, Hnone. reflexivity.
Qed.

Lemma unresolved_chain_raises_witness :
  fst (generate_enforced (H := Demo.scripted Demo2.unresolved)
         Demo.kw_single Demo.pristine) = Raise AttributeError.
Proof.
  refine (proj1 (unresolved_chain_raises (H := Demo.scripted Demo2.unresolved)
                   Demo.kw_single Demo.pristine
                   [([[0%Z]], [[0%R; 1%R; 0%R]])] (mkOutput [[0%Z; 1%Z]])
                   eq_refl eq_refl _)).
  discriminate.
Defined.

(** ** Sessions on one model *)

Lemma self_saved_recurses {H : Host} self saved cfg w :
  old_warper (nth self (managers w) no_manager) = HReplaced self saved ->
  forall depth filter_func,
    LogitsSaverManager.call_hook depth (HReplaced self filter_func) cfg w
    = (Raise RecursionError, w).
Proof.
  intros Hold. induction depth as [|depth IH]; intros filter_func.
  - reflexivity.
  - cbn [LogitsSaverManager.call_hook]. unfold bind, read_manager.
    rewrite Hold, IH. reflexivity.
Qed.

(** X9 -- One manager, two replacements.  Calling [replace_logits_warper]
    a second time on the same manager saves the first replacement function
    as if it were the original: the model's own method is lost (the release
    installs the first replacement function, not the method), and every
    resolution from then on ends in a [RecursionError], the closure calling
    itself through [self.old_warper]. *)
Theorem second_replace_loses_original {H : Host} (self : loc)
        (filter1 filter2 : option filter) (cfg : config) (w : world) :
  self < length (managers w) ->
  let w2 :=
    snd (LogitsSaverManager.replace_logits_warper self filter2
           (snd (LogitsSaverManager.replace_logits_warper self filter1 w))) in
  model_hook w2 = HReplaced self filter2 /\
  old_warper (nth self (managers w2) no_manager) = HReplaced self filter1 /\
  LogitsSaverManager.new_logits_warper self filter2 cfg w2
  = (Raise RecursionError, w2) /\
  model_hook (snd (LogitsSaverManager.unreplace_logits_warper self w2))
  = HReplaced self filter1.
Proof.
  intros Hself w2.
  assert (Hold : old_warper (nth self (managers w2) no_manager)
                 = HReplaced self filter1).
  { subst w2. simpl.
    rewrite update_nth_same by (rewrite update_length; exact Hself).
    reflexivity. }
  split; [reflexivity|]. split; [exact Hold|]. split.
  - apply (self_saved_recurses self filter1 cfg w2 Hold).
  - rewrite unreplace_hook. simpl. exact Hold.
Qed.

Lemma second_replace_loses_original_witness :
  fst (LogitsSaverManager.new_logits_warper
         (H := Demo.scripted Demo.two_steps) 0 None tt
         (snd (LogitsSaverManager.replace_logits_warper 0 None
                 (snd (LogitsSaverManager.replace_logits_warper 0 None
                         Demo2.two_managers)))))
  = Raise RecursionError.
Proof.
  exact (f_equal fst
           (proj1 (proj2 (proj2
              (second_replace_loses_original
                 (H := Demo.scripted Demo.two_steps) 0 None None tt
                 Demo2.two_managers (le_S _ _ (le_n 1))))))).
Defined.

Lemma call_hook_over_session {H : Host} depth b fb a fa cfg w :
  old_warper (nth b (managers w) no_manager) = HReplaced a fa ->
  LogitsSaverManager.call_hook (S depth) (HReplaced b fb) cfg w
  = match LogitsSaverManager.call_hook depth (HReplaced a fa) cfg w with
    | (Ok warpers, w1) =>
        (Ok (PSaver (length (savers w1))
               :: match fb with
                  | Some f => PPrefixConstrained f 1 :: warpers
                  | None => warpers
                  end),
         set_managers
           (update b
              (fun m => mkManager (Some (length (savers w1))) (old_warper m))
              (managers w1))
           (set_savers (savers w1 ++ [[]]) w1))
    | (Raise e, w1) => (Raise e, w1)
    end.
Proof.
  intros Hold. cbn [LogitsSaverManager.call_hook].
  unfold bind at 1. unfold read_manager. rewrite Hold. unfold bind at 1.
  destruct (LogitsSaverManager.call_hook depth (HReplaced a fa) cfg w)
    as [[warpers|e] w1]; [|reflexivity].
  destruct fb; reflexivity.
Qed.

(** X10 -- Two managers on one model.  Sessions nest: with two
    replacements in a row by different managers, a resolution puts both
    recorders in the chain, the later manager's first, and releasing in the
    reverse order gives the model its own method back.  Releasing in the
    order of installation does not: the first manager's replacement
    function stays installed. *)
Theorem sessions_nest {H : Host} (a b : loc) (fa fb : filter)
        (cfg : config) (w : world) :
  a < length (managers w) -> b < length (managers w) -> a <> b ->
  model_hook w = HOriginal ->
  let w2 :=
    snd (LogitsSaverManager.replace_logits_warper b (Some fb)
           (snd (LogitsSaverManager.replace_logits_warper a (Some fa) w))) in
  fst (LogitsSaverManager.new_logits_warper b (Some fb) cfg w2)
  = Ok (PSaver (S (length (savers w))) :: PPrefixConstrained fb 1
        :: PSaver (length (savers w)) :: PPrefixConstrained fa 1
        :: original_get_logits_warper cfg) /\
  model_hook
    (snd (LogitsSaverManager.unreplace_logits_warper a
            (snd (LogitsSaverManager.unreplace_logits_warper b w2))))
  = HOriginal /\
  model_hook
    (snd (LogitsSaverManager.unreplace_logits_warper b
            (snd (LogitsSaverManager.unreplace_logits_warper a w2))))
  = HReplaced a (Some fa).
Proof.
  intros Ha Hb Hab Hhook w2.
  set (ms := update b (fun m => mkManager (warper m) (HReplaced a (Some fa)))
               (update a (fun m => mkManager (warper m) (model_hook w))
                       (managers w))).
  assert (Hm2 : managers w2 = ms) by reflexivity.
  assert (Hb2 : old_warper (nth b ms no_manager) = HReplaced a (Some fa)).
  { subst ms. rewrite update_nth_same by (rewrite update_length; exact Hb).
    reflexivity. }
  assert (Ha2 : old_warper (nth a ms no_manager) = HOriginal).
  { subst ms. rewrite update_nth_other by congruence.
    rewrite update_nth_same by exact Ha. simpl. exact Hhook. }
  assert (Hb2' : old_warper (nth b (managers w2) no_manager)
                 = HReplaced a (Some fa)) by (rewrite Hm2; exact Hb2).
  assert (Ha2' : old_warper (nth a (managers w2) no_manager) = HOriginal)
    by (rewrite Hm2; exact Ha2).
  split; [|split].
  - unfold LogitsSaverManager.new_logits_warper.
    change recursion_limit with (S (S (S 997))).
    rewrite (call_hook_over_session (S (S 997)) b (Some fb) a (Some fa)
               cfg w2 Hb2').
    rewrite (call_hook_over_original 997 a (Some fa) cfg w2 Ha2').
    cbn [fst savers set_managers set_savers]. rewrite length_app.
    cbn [length]. rewrite Nat.add_1_r. reflexivity.
  - rewrite unreplace_hook. cbn [model_hook set_model_hook].
    rewrite unreplace_hook. cbn [managers set_model_hook]. exact Ha2'.
  - rewrite unreplace_hook. cbn [model_hook set_model_hook].
    rewrite unreplace_hook. cbn [managers set_model_hook]. exact Hb2'.
Qed.

Lemma sessions_nest_witness :
  model_hook
    (snd (LogitsSaverManager.unreplace_logits_warper 1
            (snd (LogitsSaverManager.unreplace_logits_warper 0
                    (snd (LogitsSaverManager.replace_logits_warper 1
                            (Some (fun _ _ => [2%Z]))
                            (snd (LogitsSaverManager.replace_logits_warper 0
                                    (Some (fun _ _ => [1%Z]))
                                    Demo2.two_managers))))))))
  = HReplaced 0 (Some (fun _ _ => [1%Z])).
Proof.
  refine (proj2 (proj2
    (sessions_nest (H := Demo.scripted Demo.two_steps) 0 1
       (fun _ _ => [1%Z]) (fun _ _ => [2%Z]) tt Demo2.two_managers
       (le_S _ _ (le_n 1)) (le_n 2) _ eq_refl))).
  discriminate.
Defined.

(** ** The reported probabilities *)

Lemma exp_le_sum_exp x r : In x r -> (exp x <= Torch.sum_exp r)%R.
Proof.
  induction r as [|y r IH]; [contradiction|]. simpl.
  intros [E|Hx].
  - subst y. pose proof (sum_exp_nonneg r). lra.
  - specialize (IH Hx). pose proof (exp_pos y). lra.
Qed.

Lemma softmax_entry_range r p :
  In p (Torch.softmax_row r) -> (0 <= p <= 1)%R.
Proof.
  intros Hp. apply softmax_row_In in Hp. destruct Hp as [x [Hx E]]. subst p.
  destruct r as [|y r]; [contradiction|].
  pose proof (sum_exp_pos y r) as Hs.
  pose proof (exp_pos x) as Hx0.
  pose proof (exp_le_sum_exp x (y :: r) Hx) as Hle.
  split.
  - left. apply Rdiv_lt_0_compat; assumption.
  - apply Rmult_le_reg_r with (Torch.sum_exp (y :: r)); [exact Hs|].
    unfold Rdiv. rewrite Rmult_assoc, Rinv_l by lra. lra.
Qed.

Lemma at_softmax_range m p v :
  Torch.at_ (Torch.softmax m) p = Ok v -> (0 <= v <= 1)%R.
Proof.
  intros Hat. destruct (at_In _ _ _ Hat) as [dist [Hd Hv]].
  unfold Torch.softmax in Hd. rewrite nth_error_map in Hd.
  destruct (nth_error m (fst p)) as [row|]; [|discriminate].
  inversion Hd; subst dist. apply (softmax_entry_range row v Hv).
Qed.

(** X11 -- The reported scores are within [0, 1].  Every entry that
    [get_generated_scores] reports, for any token sequence, and every
    entry that [get_leading_scores] reports lies in the closed interval
    from 0 to 1. *)
Theorem scores_are_probabilities (scores : list Torch.tensor)
        (token_sequence : Torch.long_tensor) :
  (forall gs,
     LogitsSaverManager.generated_scores_of scores token_sequence = Ok gs ->
     forall g, In g gs -> (0 <= g <= 1)%R) /\
  (forall bt ls,
     LogitsSaverManager.leading_scores_of scores = Ok (bt, ls) ->
     forall l, In l ls -> (0 <= l <= 1)%R).
Proof.
  split.
  - intros gs Hg g Hin.
    apply generated_scores_inv in Hg. destruct Hg as [m [ps [_ [_ Hgs]]]].
    destruct (mapM_In _ _ _ _ _ _ Hgs Hin) as [p [_ Hat]].
    apply (at_softmax_range m p g Hat).
  - intros bt ls Hl l Hin.
    apply leading_scores_inv in Hl. destruct Hl as [m [_ [_ [_ Hls]]]].
    destruct (mapM_In _ _ _ _ _ _ Hls Hin) as [p [_ Hat]].
    apply (at_softmax_range m p l Hat).
Qed.

Lemma scores_are_probabilities_witness :
  (0 <= exp 1 / Torch.sum_exp [0; 1; 0] <= 1)%R.
Proof.
  refine (proj2 (scores_are_probabilities Demo.recorded_scores [])
            [1%Z; 2%Z]
            [(exp 1 / Torch.sum_exp [0; 1; 0])%R;
             (exp 1 / Torch.sum_exp [0; 0; 1])%R]
            demo_leading_scores _ _).
  left. reflexivity.
Defined.

Lemma argmax_ne_first x r j :
  j < Torch.argmax_ne x r ->
  (nth j (x :: r) 0 < nth (Torch.argmax_ne x r) (x :: r) 0)%R.
Proof.
  revert x j; induction r as [|y r IH]; intros x j.
  - simpl. lia.
  - cbn [Torch.argmax_ne].
    destruct (Rlt_dec x (nth (Torch.argmax_ne y r) (y :: r) 0%R)) as [Hlt|Hge].
    + intros Hj.
      change (nth (S (Torch.argmax_ne y r)) (x :: y :: r) 0%R)
        with (nth (Torch.argmax_ne y r) (y :: r) 0%R).
      destruct j as [|j]; [exact Hlt|].
      change (nth (S j) (x :: y :: r) 0%R) with (nth j (y :: r) 0%R).
      apply IH. lia.
    + intros Hj. lia.
Qed.

Lemma at_softmax_value m i j row l :
  nth_error m i = Some row ->
  j < length row ->
  Torch.at_ (Torch.softmax m) (i, Z.of_nat j) = Ok l ->
  l = (exp (nth j row 0) / Torch.sum_exp row)%R.
Proof.
  intros Hrow Hj Hat.
  unfold Torch.at_, Torch.softmax in Hat. simpl fst in Hat; simpl snd in Hat.
  rewrite nth_error_map, Hrow in Hat. simpl option_map in Hat.
  cbv beta iota in Hat.
  rewrite norm_index_nat in Hat
    by (unfold Torch.softmax_row; rewrite length_map; exact Hj).
  destruct (nth_error (Torch.softmax_row row) j) as [l'|] eqn:El;
    [|discriminate].
  inversion Hat; subst l'. apply softmax_row_nth in El.
  destruct El as [x [Ex El]]. subst l.
  apply nth_error_nth with (d := 0%R) in Ex. rewrite Ex. reflexivity.
Qed.

Lemma leading_entry scores bt ls m i a row :
  LogitsSaverManager.leading_scores_of scores = Ok (bt, ls) ->
  Torch.concat scores = Ok m ->
  nth_error bt i = Some a ->
  nth_error m i = Some row ->
  exists x r,
    row = x :: r /\ a = Z.of_nat (Torch.argmax_ne x r) /\
    forall l, nth_error ls i = Some l ->
      l = (exp (nth (Torch.argmax_ne x r) row 0) / Torch.sum_exp row)%R.
Proof.
  intros Hl Hm Ha Hrow.
  apply leading_scores_inv in Hl. destruct Hl as [m' [Hm' [Harg [_ Hls]]]].
  rewrite Hm in Hm'. inversion Hm'; subst m'; clear Hm'.
  destruct (mapM_nth_error _ _ _ _ _ Harg _ _ Ha) as [row' [Hrow' Har]].
  rewrite Hrow in Hrow'. inversion Hrow'; subst row'; clear Hrow'.
  destruct row as [|x r]; [discriminate|].
  simpl in Har. inversion Har; subst a; clear Har.
  exists x, r. split; [reflexivity|]. split; [reflexivity|].
  intros l El.
  destruct (mapM_nth_error _ _ _ _ _ Hls _ _ El) as [[i' a'] [Hq Hat]].
  pose proof (combine_seq_fst _ _ _ _ _ _ Hq) as Hi'. simpl in Hi'. subst i'.
  apply combine_nth_error_snd in Hq. simpl in Hq.
  rewrite Ha in Hq. inversion Hq; subst a'.
  apply (at_softmax_value m i _ (x :: r) l Hrow (argmax_ne_lt x r) Hat).
Qed.

(** X12 -- The leading token is the first maximum.  For every recorded
    row, the id that [get_leading_scores] reports indexes the row; no score
    of the row is above the score at that id, every score at a smaller id
    is strictly below it (ties go to the smallest id); and the reported
    probability is the softmax probability of that score. *)
Theorem leading_token_is_first_maximum (scores : list Torch.tensor)
        (bt : list Z) (ls : list R) (m : Torch.tensor)
        (i : nat) (a : Z) (row : list R) :
  LogitsSaverManager.leading_scores_of scores = Ok (bt, ls) ->
  Torch.concat scores = Ok m ->
  nth_error bt i = Some a ->
  nth_error m i = Some row ->
  (0 <= a < Z.of_nat (length row))%Z /\
  (forall j x, nth_error row j = Some x ->
     (x <= nth (Z.to_nat a) row 0)%R /\
     (j < Z.to_nat a -> (x < nth (Z.to_nat a) row 0)%R)) /\
  (forall l, nth_error ls i = Some l ->
     l = (exp (nth (Z.to_nat a) row 0) / Torch.sum_exp row)%R).
Proof.
  intros Hl Hm Ha Hrow.
  destruct (leading_entry scores bt ls m i a row Hl Hm Ha Hrow)
    as [x [r [Er [Ea Hval]]]].
  subst row a. rewrite Nat2Z.id.
  pose proof (argmax_ne_lt x r) as Hlt.
  split; [lia|]. split; [|exact Hval].
  intros j y Hy. split.
  - apply argmax_ne_max. eapply nth_error_In; eauto.
  - intros Hj. apply nth_error_nth with (d := 0%R) in Hy. rewrite <- Hy.
    apply argmax_ne_first. exact Hj.
Qed.

Lemma leading_token_is_first_maximum_witness :
  (0 <= 1 < Z.of_nat (length [0%R; 1%R; 0%R]))%Z.
Proof.
  exact (proj1
    (leading_token_is_first_maximum Demo.recorded_scores
       [1%Z; 2%Z]
       [(exp 1 / Torch.sum_exp [0; 1; 0])%R;
        (exp 1 / Torch.sum_exp [0; 0; 1])%R]
       [[0%R; 1%R; 0%R]; [0%R; 0%R; 1%R]] 0 1%Z [0%R; 1%R; 0%R]
       demo_leading_scores eq_refl eq_refl eq_refl)).
Defined.

(** ** The plain path *)

Lemma host_run_records_nothing {H : Host} evs chain w :
  model_hook w = HOriginal ->
  (forall cfg, host_only (original_get_logits_warper cfg) = true) ->
  host_only chain = true ->
  savers (snd (run_events evs chain w)) = savers w /\
  managers (snd (run_events evs chain w)) = managers w.
Proof.
  intros Hhook Hhost. revert chain w Hhook.
  induction evs as [|ev evs IH]; intros chain w Hhook Hchain.
  - split; reflexivity.
  - destruct ev as [cfg|ids t]; cbn [run_events]; unfold bind.
    + unfold read_model_hook. rewrite Hhook.
      change recursion_limit with (S 999).
      cbn [LogitsSaverManager.call_hook]. unfold ret.
      apply IH; [exact Hhook|apply Hhost].
    + unfold new_tensor.
      set (w0 := set_heap (heap w ++ [t]) w).
      destruct (host_chain_keeps chain ids Hchain (length (heap w)) w0 [])
        as [cur' [w' [E [Hs [Hm [Hh _]]]]]].
      * subst w0; simpl. rewrite length_app; simpl; lia.
      * constructor.
      * rewrite E.
        destruct (IH chain w') as [Hs' Hm'];
          [rewrite Hh; exact Hhook|exact Hchain|].
        rewrite Hs', Hm', Hs, Hm. split; reflexivity.
Qed.

(** X14 -- The plain path records nothing.  On a model that has its own
    resolution method, a call that the selector sends to the plain path
    creates no recorder and no manager and appends to no record, whatever
    the host loop does: the stores of recorders and of managers are the
    same after the call. *)
Theorem plain_path_records_nothing {H : Host} (kw : kwargs) (w : world) :
  advanced_mode kw = Ok false ->
  model_hook w = HOriginal ->
  (forall cfg, host_only (original_get_logits_warper cfg) = true) ->
  savers (snd (generate_enforced kw w)) = savers w /\
  managers (snd (generate_enforced kw w)) = managers w.
Proof.
  intros Hmode Hhook Hhost.
  rewrite generate_enforced_unfold, Hmode, generate_plain_eq.
  destruct (with_prefix_allowed_tokens_fn kw _) as [kw'|e];
    [|split; reflexivity].
  cbn [snd]. unfold model_generate, bind at 1. unfold read_model_hook.
  pose proof (host_run_records_nothing
                (events (host_generate (model_hook w) kw')) [] w
                Hhook Hhost eq_refl) as Hrun.
  unfold bind.
  destruct (run_events (events (host_generate (model_hook w) kw')) [] w)
    as [[u|e] w1]; exact Hrun.
Qed.

Lemma plain_path_records_nothing_witness :
  savers (snd (generate_enforced (H := Demo.scripted Demo.two_steps)
                 Demo.kw_pair Demo.pristine)) = [].
Proof.
  refine (proj1 (plain_path_records_nothing
                   (H := Demo.scripted Demo.two_steps)
                   Demo.kw_pair Demo.pristine eq_refl eq_refl _)).
  intros cfg. reflexivity.
Defined.

(** ** The generated token's score *)

Lemma mapM_nth_error_fwd A B (f : A -> result B) l bs :
  mapM f l = Ok bs ->
  forall i a, nth_error l i = Some a ->
  exists b, nth_error bs i = Some b /\ f a = Ok b.
Proof.
  revert bs; induction l as [|a0 l IH]; intros bs; simpl.
  - intros _ [|i] a; discriminate.
  - destruct (f a0) as [b0|e] eqn:Ea; [|discriminate].
    destruct (mapM f l) as [bs'|e]; [|discriminate].
    intros E; inversion E; subst. intros [|i] a; simpl.
    + intros Ei; inversion Ei; subst. exists b0; split; auto.
    + intros Ei. apply (IH bs' eq_refl i a Ei).
Qed.

Lemma norm_index_value n t j :
  Torch.norm_index n t = Ok j ->
  in_vocabulary n t = true /\
  j = Z.to_nat (if (t <? 0)%Z then t + Z.of_nat n else t).
Proof.
  unfold Torch.norm_index, in_vocabulary.
  destruct ((0 <=? t)%Z && (t <? Z.of_nat n)%Z) eqn:E1.
  - apply andb_true_iff in E1. destruct E1 as [A B].
    apply Z.leb_le in A. apply Z.ltb_lt in B.
    intros E; inversion E; subst j.
    replace (t <? 0)%Z with false by (symmetry; apply Z.ltb_ge; lia).
    split; [|reflexivity].
    apply andb_true_iff. split; [apply Z.leb_le; lia|apply Z.ltb_lt; lia].
  - destruct ((- Z.of_nat n <=? t)%Z && (t <? 0)%Z) eqn:E2; [|discriminate].
    apply andb_true_iff in E2. destruct E2 as [A B].
    apply Z.leb_le in A. apply Z.ltb_lt in B.
    intros E; inversion E; subst j.
    replace (t <? 0)%Z with true by (symmetry; apply Z.ltb_lt; lia).
    split; [|reflexivity].
    apply andb_true_iff. split; [apply Z.leb_le; lia|apply Z.ltb_lt; lia].
Qed.

(** X15 -- The generated token's score.  For a record of [k] step vectors
    over [V] tokens and a sequence of at least [k] tokens, entry [i] that
    [get_generated_scores] reports is the softmax probability, under the
    scores recorded at step [i], of the [i]-th token of the last-[k] suffix
    of the sequence.  The token is an id of the vocabulary, a negative id
    counting from its end. *)
Theorem generated_score_is_token_probability (V : nat)
        (scores : list Torch.tensor) (token_sequence : Torch.long_tensor)
        (gs : list R) (i : nat) (t : Z) (row : list R) :
  step_vectors V scores = true ->
  length scores <= length token_sequence ->
  LogitsSaverManager.generated_scores_of scores token_sequence = Ok gs ->
  nth_error (skipn (length token_sequence - length scores) token_sequence) i
  = Some t ->
  nth_error (List.concat scores) i = Some row ->
  in_vocabulary V t = true /\
  nth_error gs i
  = Some (exp (nth (Z.to_nat (if (t <? 0)%Z then t + Z.of_nat V else t))
                   row 0)
          / Torch.sum_exp row)%R.
Proof.
  intros Hsv Hle Hg Ht Hrow.
  destruct (generated_scores_length V _ _ _ Hsv Hle Hg) as [_ Hne].
  assert (Hk : length scores <> 0)
    by (destruct scores; [contradiction|discriminate]).
  apply generated_scores_inv in Hg. destruct Hg as [m [ps [Hm [Hb Hgs]]]].
  apply concat_ok in Hm. destruct Hm as [Em _]. subst m.
  destruct (step_vectors_concat V _ Hsv) as [Hlen Hall].
  rewrite Hlen, slice_last_pos in Hb by exact Hk.
  rewrite broadcast_same in Hb
    by (unfold Torch.arange; rewrite length_seq, length_skipn; lia).
  inversion Hb; subst ps; clear Hb.
  assert (Hi : i < length scores)
    by (rewrite <- Hlen; apply nth_error_Some; congruence).
  pose proof (combine_seq_nth _ 0 (length scores) _ i t Hi Ht) as Hp.
  destruct (mapM_nth_error_fwd _ _ _ _ _ Hgs _ _ Hp) as [g [Eg Hat]].
  simpl in Hat.
  assert (HV : length row = V).
  { rewrite Forall_forall in Hall. apply Hall.
    eapply nth_error_In; eauto. }
  unfold Torch.at_, Torch.softmax in Hat. simpl fst in Hat; simpl snd in Hat.
  rewrite nth_error_map, Hrow in Hat. simpl option_map in Hat.
  cbv beta iota in Hat.
  unfold Torch.softmax_row in Hat at 1. rewrite length_map, HV in Hat.
  destruct (Torch.norm_index V t) as [j|e] eqn:Ej; [|discriminate].
  destruct (norm_index_value V t j Ej) as [Hin Ejv].
  split; [exact Hin|].
  destruct (nth_error (Torch.softmax_row row) j) as [v|] eqn:Ev;
    [|discriminate].
  inversion Hat; subst v. apply softmax_row_nth in Ev.
  destruct Ev as [x [Ex Ev]].
  apply nth_error_nth with (d := 0%R) in Ex.
  rewrite Eg, Ev, <- Ex, Ejv. reflexivity.
Qed.

Lemma generated_score_is_token_probability_witness :
  nth_error [(exp 1 / Torch.sum_exp [0; 1; 0])%R;
             (exp 1 / Torch.sum_exp [0; 0; 1])%R] 1
  = Some (exp (nth (Z.to_nat 2) [0%R; 0%R; 1%R] 0) / Torch.sum_exp [0; 0; 1])%R.
Proof.
  exact (proj2
    (generated_score_is_token_probability 3 Demo.recorded_scores
       [0%Z; 1%Z; 2%Z]
       [(exp 1 / Torch.sum_exp [0; 1; 0])%R;
        (exp 1 / Torch.sum_exp [0; 0; 1])%R]
       1 2%Z [0%R; 0%R; 1%R]
       eq_refl (le_S _ _ (le_n 2)) eq_refl eq_refl eq_refl)).
Defined.
